(** * smooth_feedback: the operator-splitting QP solver and its polisher

    A shallow embedding of [include/smooth/feedback/qp.hpp] (dense problem
    flavour, [Scalar = double]) together with the factorization facade of
    [include/smooth/feedback/internal/ldlt_lapack.hpp], and of the
    entry-by-entry assembly of the system matrices in the sparse flavour.

    - [double] is Rocq's primitive binary64 [float]; the [float]-typed
      members of [SolverParams] are binary32 values, all of which are
      binary64 values, so they are carried as [float] too.
    - [uint64_t] members are [Z] in the range [0, 2^64); the loop counters
      declared [auto i = 0u] are [unsigned int], carried as [Z] with the
      wrap-around at [2^32] written out.
    - Eigen vectors are lists of scalars; dense matrices are row lists with
      their dimensions.
    - LAPACK's xSYSVX sits behind the class [LDLT]; every theorem is stated
      for an arbitrary backend.
    - A call either returns, has no defined result (remainder by zero, a
      reduction over an empty vector) or does not return; the last is
      approximated by fuel. *)

From Stdlib Require Import ZArith Floats Bool Lia.
From stdpp Require Import base tactics option list gmap.

#[global] Instance float_inhabited : Inhabited float := populate 0%float.

(** ** The Eigen kernels the solver calls

    Reductions are the scalar (non-vectorised) ones: the accumulator starts
    at coefficient 0 and absorbs the others left to right. On vectors free
    of NaN the minimum and the maximum do not depend on that order; with a
    NaN Eigen leaves the result of [minCoeff] and [maxCoeff] open. The loops
    [for (auto i = 0u; i != m; ++i)] over the constraints are recursions
    over the index list [seq 0 m]: a problem has fewer than [2^32]
    constraints. Coefficient reads are total ([!!!]); the source never reads
    outside a vector whose length is that of its type. *)

Module Eigen.
Local Open Scope float_scope.

Abbreviation Vec := (list float).

(** [std::max(a, b)] is [(a < b) ? b : a], [std::min(a, b)] is
    [(b < a) ? b : a]; [std::max({a, b, c})] scans with the same test. *)
Definition std_max (a b : float) : float := if a <? b then b else a.
Definition std_min (a b : float) : float := if b <? a then b else a.
Definition std_max_list (a : float) (rest : list float) : float :=
  fold_left std_max rest a.

Definition setZero (n : nat) : Vec := replicate n 0.
Definition vadd (a b : Vec) : Vec := zip_with PrimFloat.add a b.
Definition vsub (a b : Vec) : Vec := zip_with PrimFloat.sub a b.
Definition vscale (c : float) (a : Vec) : Vec := map (fun x => c * x) a.
Definition vdiv (a : Vec) (c : float) : Vec := map (fun x => x / c) a.
Definition vopp (a : Vec) : Vec := map PrimFloat.opp a.
Definition cwiseMax (a b : Vec) : Vec := zip_with std_max a b.
Definition cwiseMin (a b : Vec) : Vec := zip_with std_min a b.
Definition cwiseAbs (a : Vec) : Vec := map PrimFloat.abs a.
Definition head (n : nat) (a : Vec) : Vec := take n a.
Definition tail (m : nat) (a : Vec) : Vec := drop (length a - m) a.
Definition dot (a b : Vec) : float :=
  fold_left PrimFloat.add (zip_with PrimFloat.mul a b) 0.

(** [DenseBase::redux]: not defined on an empty vector (Eigen asserts
    "you are using an empty matrix"). *)
Definition redux (op : float -> float -> float) (v : Vec) : option float :=
  match v with
  | [] => None
  | x :: r => Some (fold_left op r x)
  end.
Definition minCoeff : Vec -> option float := redux std_min.
Definition maxCoeff : Vec -> option float := redux std_max.

(** [lpNorm<Infinity>()] is [cwiseAbs().maxCoeff()], and 0 on an empty
    vector. *)
Definition lpNormInf (v : Vec) : float :=
  match maxCoeff (cwiseAbs v) with
  | Some r => r
  | None => 0
  end.

(** A dense matrix: its dimensions and its rows. *)
Record Matrix := mkMatrix {
  rows : nat;
  cols : nat;
  coeffs : list (list float)
}.

Definition coeff (M : Matrix) (i j : nat) : float := (coeffs M !!! i) !!! j.
Definition build (r c : nat) (f : nat -> nat -> float) : Matrix :=
  mkMatrix r c (map (fun i => map (f i) (seq 0 c)) (seq 0 r)).

(** [M * x] and [M.transpose() * y]. *)
Definition mul_vec (M : Matrix) (x : Vec) : Vec :=
  map (fun r => dot r x) (coeffs M).
Definition tmul_vec (M : Matrix) (y : Vec) : Vec :=
  map (fun j => dot (map (fun r => r !!! j) (coeffs M)) y) (seq 0 (cols M)).

(** [M.selfadjointView<Eigen::Upper>() * t]: only the upper triangle of
    [M] is read. *)
Definition upper_coeff (M : Matrix) (i j : nat) : float :=
  if (i <=? j)%nat then coeff M i j else coeff M j i.
Definition selfadjoint_upper_mul (M : Matrix) (t : Vec) : Vec :=
  map (fun i => dot (map (upper_coeff M i) (seq 0 (cols M))) t) (seq 0 (rows M)).
End Eigen.
Export Eigen.

(** ** Machine integers *)

Module MachineInt.
Local Open Scope Z_scope.

(** [unsigned int] is 32 bits wide on the supported platforms. *)
Definition UINT_WIDTH : Z := 32.
Definition UINT_MODULUS : Z := 2 ^ UINT_WIDTH.
Definition UINT64_MODULUS : Z := 2 ^ 64.
Definition UINT64_MAX : Z := UINT64_MODULUS - 1.

(** [++i] on an [unsigned int]. *)
Definition uint_incr (i : Z) : Z := (i + 1) mod UINT_MODULUS.

(** [a % b] on [uint64_t]: no result when [b] is zero. *)
Definition uint64_rem (a b : Z) : option Z :=
  if b =? 0 then None else Some (a mod b).
(** [a - b] on [uint64_t]. *)
Definition uint64_sub (a b : Z) : Z := (a - b) mod UINT64_MODULUS.
End MachineInt.
Export MachineInt.

(** ** What a call can do *)

Inductive outcome (A : Type) : Type :=
| Returns (a : A)      (* the call returns [a] *)
| Undefined            (* the call has no defined result *)
| OutOfFuel.           (* the call has not returned within the fuel given *)
Arguments Returns {A} a.
Arguments Undefined {A}.
Arguments OutOfFuel {A}.

Definition obind {A B} (c : outcome A) (k : A -> outcome B) : outcome B :=
  match c with
  | Returns a => k a
  | Undefined => Undefined
  | OutOfFuel => OutOfFuel
  end.
Definition omap {A B} (f : A -> B) (c : outcome A) : outcome B :=
  obind c (fun a => Returns (f a)).

(** ** The factorization facade ([LDLTLapack], [LDLTSparse]) *)

Class LDLT := {
  (** the factorization object *)
  Factor : Type;
  (** the constructor, which factorizes; only the upper triangle is read *)
  factorize : Matrix -> Factor;
  (** [info()]: 0 on success, [i > 0] when [D(i, i) = 0] *)
  info : Factor -> Z;
  (** [solve(b)] *)
  solve : Factor -> Vec -> Vec
}.

(** ** Data model *)

Record QuadraticProgram := mkQP {
  P : Matrix;
  q : Vec;
  A : Matrix;
  l : Vec;
  u : Vec
}.

Inductive ExitCode :=
| Optimal | PolishFailed | PrimalInfeasible | DualInfeasible | MaxIterations | Unknown.

Record Solution := mkSolution {
  code : ExitCode;
  primal : Vec;
  dual : Vec
}.

Record SolverParams := mkParams {
  alpha : float;
  rho : float;
  sigma : float;
  eps_abs : float;
  eps_rel : float;
  eps_primal_inf : float;
  eps_dual_inf : float;
  max_iter : Z;
  stop_check_iter : Z;
  polish : bool;
  polish_iter : Z;
  delta : float
}.

(** The member initialisers of [SolverParams]; the [float] literals are the
    binary32 roundings of 1.6, 0.1, 1e-6, 1e-3 and 1e-4. *)
Definition default_params : SolverParams := {|
  alpha := 0x1.99999ap+0;
  rho := 0x1.99999ap-4;
  sigma := 0x1.0c6f7ap-20;
  eps_abs := 0x1.0624dep-10;
  eps_rel := 0x1.0624dep-10;
  eps_primal_inf := 0x1.a36e2ep-14;
  eps_dual_inf := 0x1.a36e2ep-14;
  max_iter := UINT64_MAX;
  stop_check_iter := 10;
  polish := true;
  polish_iter := 5;
  delta := 0x1.0c6f7ap-20
|}.

(** ** polishQP *)

Section Polish.
Context {backend : LDLT}.
Local Open Scope float_scope.

(** First loop of [polishQP]: count the constraints with a negative and
    with a positive dual. *)
Fixpoint count_active (idxs : list nat) (dl : Vec) (nl nu : nat) : nat * nat :=
  match idxs with
  | [] => (nl, nu)
  | idx :: rest =>
      let nl' := if dl !!! idx <? 0 then S nl else nl in
      let nu' := if 0 <? dl !!! idx then S nu else nu in
      count_active rest dl nl' nu'
  end.

(** Second loop: [LU_idx(lcntr++) = idx] and [LU_idx(nl + ucntr++) = idx]. *)
Fixpoint fill_LU_idx (idxs : list nat) (dl : Vec) (nl : nat)
    (LU_idx : list nat) (lcntr ucntr : nat) : list nat :=
  match idxs with
  | [] => LU_idx
  | idx :: rest =>
      let '(LU1, lcntr') :=
        if dl !!! idx <? 0 then (<[lcntr := idx]> LU_idx, S lcntr) else (LU_idx, lcntr) in
      let '(LU2, ucntr') :=
        if 0 <? dl !!! idx then (<[(nl + ucntr)%nat := idx]> LU1, S ucntr) else (LU1, ucntr) in
      fill_LU_idx rest dl nl LU2 lcntr' ucntr'
  end.

(** The reduced matrix [H] (upper triangle) and its perturbed copy [Hp]. *)
Definition polish_H (pbm : QuadraticProgram) (n nl nu : nat) (LU_idx : list nat) : Matrix :=
  build (n + nl + nu) (n + nl + nu) (fun i j =>
    if (i <? n)%nat then
      if (j <? n)%nat then coeff (P pbm) i j
      else coeff (A pbm) (LU_idx !!! (j - n)%nat) i
    else 0).

Definition polish_Hp (H : Matrix) (n : nat) (dlt : float) : Matrix :=
  build (rows H) (cols H) (fun i j =>
    if (i =? j)%nat then
      if (i <? n)%nat then coeff H i j + dlt else coeff H i j - dlt
    else coeff H i j).

(** [h << -q, LU_idx.head(nl).unaryExpr(l), LU_idx.tail(nu).unaryExpr(u)]. *)
Definition polish_rhs (pbm : QuadraticProgram) (nl nu : nat) (LU_idx : list nat) : Vec :=
  vopp (q pbm)
    ++ map (fun i => l pbm !!! i) (take nl LU_idx)
    ++ map (fun i => u pbm !!! i) (drop (length LU_idx - nu) LU_idx).

(** [t_hat += ldlt.solve(h - H.selfadjointView<Upper>() * t_hat)]. *)
Definition refine_step (F : Factor) (H : Matrix) (h : Vec) (t_hat : Vec) : Vec :=
  vadd t_hat (solve F (vsub h (selfadjoint_upper_mul H t_hat))).

(** Iterative refinement; the counter is [auto i = 0u], compared with the
    64-bit [polish_iter]. *)
Fixpoint refine (fuel : nat) (F : Factor) (H : Matrix) (h : Vec)
    (polish_iter : Z) (i : Z) (t_hat : Vec) : outcome Vec :=
  match fuel with
  | O => OutOfFuel
  | S fuel' =>
      if (i =? polish_iter)%Z then Returns t_hat
      else refine fuel' F H h polish_iter (uint_incr i) (refine_step F H h t_hat)
  end.

(** [for i < cnt: dual(LU_idx(off + i)) = t_hat(base + i)]. *)
Fixpoint write_duals (ks : list nat) (LU_idx : list nat) (t_hat : Vec)
    (off base : nat) (dl : Vec) : Vec :=
  match ks with
  | [] => dl
  | i :: rest =>
      write_duals rest LU_idx t_hat off base
        (<[LU_idx !!! (off + i)%nat := t_hat !!! (base + i)%nat]> dl)
  end.

Definition active_counts (pbm : QuadraticProgram) (sol : Solution) : nat * nat :=
  count_active (seq 0 (rows (A pbm))) (dual sol) 0 0.

Definition active_indices (pbm : QuadraticProgram) (sol : Solution) : list nat :=
  let '(nl, nu) := active_counts pbm sol in
  fill_LU_idx (seq 0 (rows (A pbm))) (dual sol) nl (replicate (nl + nu) 0%nat) 0 0.

Definition polish_factor (pbm : QuadraticProgram) (sol : Solution)
    (prm : SolverParams) : Factor :=
  let n := cols (A pbm) in
  let '(nl, nu) := active_counts pbm sol in
  factorize (polish_Hp (polish_H pbm n nl nu (active_indices pbm sol)) n (delta prm)).

(** The refined vector [t_hat] at the end of the refinement loop. *)
Definition polish_t_hat (fuel : nat) (pbm : QuadraticProgram) (sol : Solution)
    (prm : SolverParams) : outcome Vec :=
  let n := cols (A pbm) in
  let '(nl, nu) := active_counts pbm sol in
  let LU_idx := active_indices pbm sol in
  refine fuel (polish_factor pbm sol prm) (polish_H pbm n nl nu LU_idx)
    (polish_rhs pbm nl nu LU_idx) (polish_iter prm) 0 (setZero (n + nl + nu)).

(** The update at the end of [polishQP]. *)
Definition polish_update (pbm : QuadraticProgram) (sol : Solution) (t_hat : Vec) : Solution :=
  let n := cols (A pbm) in
  let '(nl, nu) := active_counts pbm sol in
  let LU_idx := active_indices pbm sol in
  let d1 := write_duals (seq 0 nl) LU_idx t_hat 0 n (dual sol) in
  let d2 := write_duals (seq 0 nu) LU_idx t_hat nl (n + nl) d1 in
  {| code := code sol; primal := head n t_hat; dual := d2 |}.

(** [polishQP(pbm, sol, prm)]: the value returned is what the reference
    [sol] holds when the call returns. *)
Definition polishQP (fuel : nat) (pbm : QuadraticProgram) (sol : Solution)
    (prm : SolverParams) : outcome Solution :=
  if negb (info (polish_factor pbm sol prm) =? 0)%Z then
    Returns {| code := PolishFailed; primal := primal sol; dual := dual sol |}
  else
    omap (polish_update pbm sol) (polish_t_hat fuel pbm sol prm).
End Polish.

(** ** solveQP *)

(** The iterates [x], [z], [y] of the loop. *)
Record Iterates := mkIterates {
  cur_x : Vec;
  cur_z : Vec;
  cur_y : Vec
}.

(** What [solveQP] returns, with two counters the source does not keep:
    how often the KKT matrix was handed to the factorization, and how many
    times the body of the ADMM loop was entered. *)
Record Report := mkReport {
  solution : Solution;
  kkt_factorizations : nat;
  iterations : nat
}.

Definition empty_solution (c : ExitCode) : Solution :=
  {| code := c; primal := []; dual := [] |}.

Section Solve.
Context {backend : LDLT}.
Local Open Scope float_scope.

(** "check that feasible set is nonempty": the three reductions, with the
    short-circuit of [||]. *)
Definition feasible_set_empty (pbm : QuadraticProgram) : option bool :=
  d ← minCoeff (vsub (u pbm) (l pbm));
  if d <? 0 then Some true
  else
    lmax ← maxCoeff (l pbm);
    if lmax =? infinity then Some true
    else
      umin ← minCoeff (u pbm);
      Some (umin =? neg_infinity).

(** The dense assembly of [H]; the block below the diagonal is neither
    written nor read. *)
Definition kkt_matrix (pbm : QuadraticProgram) (prm : SolverParams) : Matrix :=
  let n := cols (A pbm) in
  let m := rows (A pbm) in
  build (n + m) (n + m) (fun i j =>
    if (i <? n)%nat then
      if (j <? n)%nat then
        if (i =? j)%nat then coeff (P pbm) i j + sigma prm else coeff (P pbm) i j
      else coeff (A pbm) (j - n)%nat i
    else
      if (j <? n)%nat then 0
      else if (i =? j)%nat then (-1) / rho prm else 0).

Definition init_iterates (pbm : QuadraticProgram) (hotstart : option Solution) : Iterates :=
  match hotstart with
  | Some hs =>
      {| cur_x := primal hs; cur_z := mul_vec (A pbm) (primal hs); cur_y := dual hs |}
  | None =>
      {| cur_x := setZero (cols (A pbm));
         cur_z := setZero (rows (A pbm));
         cur_y := setZero (rows (A pbm)) |}
  end.

(** The ADMM iteration: [x_next], [z_next], [y_next] from [x], [z], [y]. *)
Definition admm_update (F : Factor) (pbm : QuadraticProgram) (prm : SolverParams)
    (st : Iterates) : Iterates :=
  let n := cols (A pbm) in
  let m := rows (A pbm) in
  let x := cur_x st in
  let z := cur_z st in
  let y := cur_y st in
  let h := vsub (vscale (sigma prm) x) (q pbm) ++ vsub z (vdiv y (rho prm)) in
  let p := solve F h in
  let z_tilde := vadd z (vdiv (vsub (tail m p) y) (rho prm)) in
  let x_next := vadd (vscale (alpha prm) (head n p)) (vscale (1 - alpha prm) x) in
  let z_interp := vadd (vscale (alpha prm) z_tilde) (vscale (1 - alpha prm) z) in
  let z_next := cwiseMin (cwiseMax (vadd z_interp (vdiv y (rho prm))) (l pbm)) (u pbm) in
  let y_next := vadd y (vscale (rho prm) (vsub z_interp z_next)) in
  {| cur_x := x_next; cur_z := z_next; cur_y := y_next |}.

(** [i % prm.stop_check_iter == prm.stop_check_iter - 1], in [uint64_t]. *)
Definition stop_check_due (prm : SolverParams) (i : Z) : option bool :=
  r ← uint64_rem i (stop_check_iter prm);
  Some (r =? uint64_sub (stop_check_iter prm) 1)%Z.

(** OPTIMALITY *)
Definition optimal_test (pbm : QuadraticProgram) (prm : SolverParams) (st : Iterates) : bool :=
  let Px := mul_vec (P pbm) (cur_x st) in
  let Ax := mul_vec (A pbm) (cur_x st) in
  let Aty := tmul_vec (A pbm) (cur_y st) in
  let primal_scale := std_max (lpNormInf Ax) (lpNormInf (cur_z st)) in
  let dual_scale := std_max_list (lpNormInf Px) [lpNormInf (q pbm); lpNormInf Aty] in
  (lpNormInf (vsub Ax (cur_z st)) <=? eps_abs prm + eps_rel prm * primal_scale)
  && (lpNormInf (vadd (vadd Px (q pbm)) Aty) <=? eps_abs prm + eps_abs prm * dual_scale).

(** PRIMAL INFEASIBILITY: the scan that accumulates [u_dyp_plus_l_dyn]. *)
Fixpoint primal_inf_scan (pbm : QuadraticProgram) (prm : SolverParams)
    (dy : Vec) (dy_norm : float) (idxs : list nat) (acc : float) : float :=
  match idxs with
  | [] => acc
  | i :: rest =>
      let after_u :=
        if negb (u pbm !!! i =? infinity) then
          Some (acc + u pbm !!! i * std_max 0 (dy !!! i))
        else if eps_primal_inf prm * dy_norm <? dy !!! i then None
        else Some acc in
      match after_u with
      | None => infinity
      | Some acc1 =>
          let after_l :=
            if negb (l pbm !!! i =? neg_infinity) then
              Some (acc1 + l pbm !!! i * std_min 0 (dy !!! i))
            else if dy !!! i <? (- eps_primal_inf prm) * dy_norm then None
            else Some acc1 in
          match after_l with
          | None => infinity
          | Some acc2 => primal_inf_scan pbm prm dy dy_norm rest acc2
          end
      end
  end.

Definition u_dyp_plus_l_dyn (pbm : QuadraticProgram) (prm : SolverParams) (dy : Vec) : float :=
  primal_inf_scan pbm prm dy (lpNormInf dy) (seq 0 (rows (A pbm))) 0.

Definition primal_infeasible_test (pbm : QuadraticProgram) (prm : SolverParams)
    (st nxt : Iterates) : bool :=
  let dy := vsub (cur_y nxt) (cur_y st) in
  let dy_norm := lpNormInf dy in
  let At_dy_norm := lpNormInf (tmul_vec (A pbm) dy) in
  std_max At_dy_norm (u_dyp_plus_l_dyn pbm prm dy) <? eps_primal_inf prm * dy_norm.

(** DUAL INFEASIBILITY: the loop runs while [dual_infeasible] holds. *)
Definition dual_inf_row (pbm : QuadraticProgram) (prm : SolverParams)
    (Adx : Vec) (dx_norm : float) (i : nat) : bool :=
  if u pbm !!! i =? infinity then (- eps_dual_inf prm) * dx_norm <=? Adx !!! i
  else if l pbm !!! i =? neg_infinity then Adx !!! i <=? eps_dual_inf prm * dx_norm
  else abs (Adx !!! i) <? eps_dual_inf prm * dx_norm.

Fixpoint dual_inf_scan (pbm : QuadraticProgram) (prm : SolverParams)
    (Adx : Vec) (dx_norm : float) (idxs : list nat) (dual_infeasible : bool) : bool :=
  match idxs with
  | [] => dual_infeasible
  | i :: rest =>
      if dual_infeasible then
        dual_inf_scan pbm prm Adx dx_norm rest
          (dual_infeasible && dual_inf_row pbm prm Adx dx_norm i)
      else dual_infeasible
  end.

Definition dual_infeasible_test (pbm : QuadraticProgram) (prm : SolverParams)
    (st nxt : Iterates) : bool :=
  let dx := vsub (cur_x nxt) (cur_x st) in
  let dx_norm := lpNormInf dx in
  let dual_infeasible :=
    (lpNormInf (mul_vec (P pbm) dx) <=? eps_dual_inf prm * dx_norm)
    && (dot (q pbm) dx <=? eps_dual_inf prm * dx_norm) in
  dual_inf_scan pbm prm (mul_vec (A pbm) dx) dx_norm (seq 0 (rows (A pbm))) dual_infeasible.

(** The block under "CHECK STOPPING CRITERIA": [Some r] when it returns. *)
Definition stopping_check (fuel : nat) (pbm : QuadraticProgram) (prm : SolverParams)
    (st nxt : Iterates) : option (outcome Solution) :=
  if optimal_test pbm prm st then
    let sol := {| code := Optimal; primal := cur_x st; dual := cur_y st |} in
    Some (if polish prm then polishQP fuel pbm sol prm else Returns sol)
  else if primal_infeasible_test pbm prm st nxt then
    Some (Returns (empty_solution PrimalInfeasible))
  else if dual_infeasible_test pbm prm st nxt then
    Some (Returns (empty_solution DualInfeasible))
  else None.

(** One pass through the body of the ADMM loop: either [solveQP] returns
    ([inl]), or the next iterates are committed ([inr]). *)
Definition loop_body (fuel : nat) (F : Factor) (pbm : QuadraticProgram)
    (prm : SolverParams) (i : Z) (st : Iterates) : outcome (Solution + Iterates) :=
  let nxt := admm_update F pbm prm st in
  match stop_check_due prm i with
  | None => Undefined
  | Some false => Returns (inr nxt)
  | Some true =>
      match stopping_check fuel pbm prm st nxt with
      | Some r => omap inl r
      | None => Returns (inr nxt)
      end
  end.

(** [for (auto i = 0u; i != prm.max_iter; ++i)]: [i] is an [unsigned int],
    [max_iter] a [uint64_t]. *)
Fixpoint admm_loop (fuel : nat) (F : Factor) (pbm : QuadraticProgram)
    (prm : SolverParams) (i : Z) (iters : nat) (st : Iterates) : outcome Report :=
  match fuel with
  | O => OutOfFuel
  | S fuel' =>
      if (i =? max_iter prm)%Z then
        Returns (mkReport (mkSolution MaxIterations (cur_x st) (cur_y st)) 1 iters)
      else
        match loop_body fuel' F pbm prm i st with
        | Returns (inl sol) => Returns (mkReport sol 1 (S iters))
        | Returns (inr nxt) => admm_loop fuel' F pbm prm (uint_incr i) (S iters) nxt
        | Undefined => Undefined
        | OutOfFuel => OutOfFuel
        end
  end.

Definition solveQP_report (fuel : nat) (pbm : QuadraticProgram) (prm : SolverParams)
    (hotstart : option Solution) : outcome Report :=
  match feasible_set_empty pbm with
  | None => Undefined
  | Some true => Returns (mkReport (empty_solution PrimalInfeasible) 0 0)
  | Some false =>
      let ldlt := factorize (kkt_matrix pbm prm) in
      if negb (info ldlt =? 0)%Z then Returns (mkReport (empty_solution Unknown) 1 0)
      else admm_loop fuel ldlt pbm prm 0 0 (init_iterates pbm hotstart)
  end.

Definition solveQP (fuel : nat) (pbm : QuadraticProgram) (prm : SolverParams)
    (hotstart : option Solution) : outcome Solution :=
  omap solution (solveQP_report fuel pbm prm hotstart).
End Solve.

(** ** A backend to run the model on concrete problems

    An elimination without pivoting on the symmetric matrix given by the
    upper triangle; [info] is the 1-based position of the first zero pivot.
    The KKT matrices of the solver are quasi-definite, for which this
    factorization exists in every order. *)

Module ReferenceLDLT.
Local Open Scope float_scope.

Record factor := mkFactor { f_rows : list (list float); f_info : Z }.

Definition symmetric_rows (M : Matrix) : list (list float) :=
  map (fun i => map (upper_coeff M i) (seq 0 (cols M))) (seq 0 (rows M)).

(** Subtract the pivot row [a0 :: r0] from a row, dropping the pivot column. *)
Definition reduce (a0 : float) (r0 : list float) (r : list float) : list float :=
  match r with
  | a :: rest => zip_with (fun p v => v - (a / a0) * p) r0 rest
  | [] => []
  end.

Fixpoint zero_pivot (k : nat) (pos : Z) (rws : list (list float)) : Z :=
  match k, rws with
  | S k', (a0 :: r0) :: others =>
      if a0 =? 0 then pos else zero_pivot k' (pos + 1)%Z (map (reduce a0 r0) others)
  | _, _ => 0%Z
  end.

(** Rows carry the right-hand side as their last entry. *)
Fixpoint eliminate (k : nat) (aug : list (list float)) : Vec :=
  match k, aug with
  | S k', (a0 :: r0) :: others =>
      let xs := eliminate k' (map (reduce a0 r0) others) in
      (List.last r0 0 - dot r0 xs) / a0 :: xs
  | _, _ => []
  end.

Definition ref_factorize (M : Matrix) : factor :=
  let rws := symmetric_rows M in
  mkFactor rws (zero_pivot (length rws) 1 rws).

Definition ref_solve (F : factor) (b : Vec) : Vec :=
  eliminate (length (f_rows F)) (zip_with (fun r bi => r ++ [bi]) (f_rows F) b).

#[export] Instance backend : LDLT := {|
  Factor := factor;
  factorize := ref_factorize;
  info := f_info;
  solve := ref_solve
|}.
End ReferenceLDLT.

(** ** The loop of solveQP: committed iterates and the 32-bit counter *)

Section Trajectory.
Context {backend : LDLT}.
Variables (F : Factor) (pbm : QuadraticProgram) (prm : SolverParams).

(** The iterates after [k] commits. *)
Definition committed (st0 : Iterates) (k : nat) : Iterates :=
  Nat.iter k (admm_update F pbm prm) st0.

(** The value of the counter [i] when the loop test is reached for the
    [k]-th time (counting from 0). *)
Definition counter (k : nat) : Z := (Z.of_nat k mod UINT_MODULUS)%Z.

(** One of the three stopping criteria holds for the iterates [st] and
    their successors. *)
Definition criterion_met (st : Iterates) : bool :=
  let nxt := admm_update F pbm prm st in
  optimal_test pbm prm st
  || primal_infeasible_test pbm prm st nxt
  || dual_infeasible_test pbm prm st nxt.

(** No stopping criterion is met at any of the first [N] passes (all
    passes when [N] is [None]). *)
Definition never_stops (st0 : Iterates) (N : option nat) : Prop :=
  forall k, match N with Some b => (k < b)%nat | None => True end ->
    stop_check_due prm (counter k) = Some true ->
    criterion_met (committed st0 k) = false.
End Trajectory.

(** ** The stopping tests as the specification words them *)

Section SpecWords.
Local Open Scope float_scope.
Variables (pbm : QuadraticProgram) (prm : SolverParams).


(** Constraint [i] destroys the certificate: [u[i] = +inf] with
    [dy[i] > eps_primal_inf * |dy|], or [l[i] = -inf] with
    [dy[i] < -eps_primal_inf * |dy|]. *)
Definition certificate_destroyed (dy : Vec) (i : nat) : bool :=
  ((u pbm !!! i =? infinity) && (eps_primal_inf prm * lpNormInf dy <? dy !!! i))
  || ((l pbm !!! i =? neg_infinity) && (dy !!! i <? (- eps_primal_inf prm) * lpNormInf dy)).

(** The terms constraint [i] adds to the sum: [u[i] * max(0, dy[i])] when
    [u[i]] is not [+inf], then [l[i] * min(0, dy[i])] when [l[i]] is not
    [-inf]. *)
Definition support_terms (dy : Vec) (i : nat) : list float :=
  (if u pbm !!! i =? infinity then [] else [u pbm !!! i * std_max 0 (dy !!! i)])
  ++ (if l pbm !!! i =? neg_infinity then [] else [l pbm !!! i * std_min 0 (dy !!! i)]).

(** [+inf] when some constraint destroys the certificate, else the sum of
    all terms, added in the order of the constraints. *)
Definition u_dyp_plus_l_dyn_spec (dy : Vec) : float :=
  let idxs := seq 0 (rows (A pbm)) in
  if existsb (certificate_destroyed dy) idxs then infinity
  else fold_left PrimFloat.add (flat_map (support_terms dy) idxs) 0.

(** The three conditions of the dual infeasibility certificate. *)
Definition dual_certificate_spec (dx : Vec) : bool :=
  let bound := eps_dual_inf prm * lpNormInf dx in
  let Adx := mul_vec (A pbm) dx in
  (lpNormInf (mul_vec (P pbm) dx) <=? bound)
  && (dot (q pbm) dx <=? bound)
  && forallb (fun i =>
       if u pbm !!! i =? infinity then (- eps_dual_inf prm) * lpNormInf dx <=? Adx !!! i
       else if l pbm !!! i =? neg_infinity then Adx !!! i <=? bound
       else abs (Adx !!! i) <? bound)
     (seq 0 (rows (A pbm))).

(** The active sets [L = { i : dual[i] < 0 }] and [U = { i : dual[i] > 0 }],
    in increasing order. *)
Definition active_L (dl : Vec) : list nat :=
  List.filter (fun i => dl !!! i <? 0) (seq 0 (rows (A pbm))).
Definition active_U (dl : Vec) : list nat :=
  List.filter (fun i => 0 <? dl !!! i) (seq 0 (rows (A pbm))).
End SpecWords.

(** ** Concrete problems *)

Module Examples.
Local Open Scope float_scope.

Definition scalar (a : float) : Matrix := mkMatrix 1 1 [[a]].

(** [min x^2  s.t.  1 <= x <= 2]. *)
Definition scalar_box : QuadraticProgram := mkQP (scalar 2) [0] (scalar 1) [1] [2].

(** [min x^2 + x/2048  s.t.  -1 <= x <= 1]: the origin passes the
    optimality test with the default tolerances, the minimiser is
    [-1/4096]. *)
Definition near_origin : QuadraticProgram :=
  mkQP (scalar 2) [0x1p-11] (scalar 1) [-1] [1].


(** One variable and no constraint row. *)
Definition unconstrained : QuadraticProgram :=
  mkQP (scalar 2) [0] (mkMatrix 0 1 []) [] [].

(** A zero cost: with [delta = 0] the polisher's matrix is singular. *)
Definition flat_cost : QuadraticProgram := mkQP (scalar 0) [0] (scalar 1) [-1] [1].

Definition with_max_iter (v : Z) (prm : SolverParams) : SolverParams :=
  mkParams (alpha prm) (rho prm) (sigma prm) (eps_abs prm) (eps_rel prm)
    (eps_primal_inf prm) (eps_dual_inf prm) v (stop_check_iter prm)
    (polish prm) (polish_iter prm) (delta prm).
Definition with_stop_check_iter (v : Z) (prm : SolverParams) : SolverParams :=
  mkParams (alpha prm) (rho prm) (sigma prm) (eps_abs prm) (eps_rel prm)
    (eps_primal_inf prm) (eps_dual_inf prm) (max_iter prm) v
    (polish prm) (polish_iter prm) (delta prm).
Definition with_polish_iter (v : Z) (prm : SolverParams) : SolverParams :=
  mkParams (alpha prm) (rho prm) (sigma prm) (eps_abs prm) (eps_rel prm)
    (eps_primal_inf prm) (eps_dual_inf prm) (max_iter prm) (stop_check_iter prm)
    (polish prm) v (delta prm).
Definition with_delta (v : float) (prm : SolverParams) : SolverParams :=
  mkParams (alpha prm) (rho prm) (sigma prm) (eps_abs prm) (eps_rel prm)
    (eps_primal_inf prm) (eps_dual_inf prm) (max_iter prm) (stop_check_iter prm)
    (polish prm) (polish_iter prm) v.
Definition with_polish (v : bool) (prm : SolverParams) : SolverParams :=
  mkParams (alpha prm) (rho prm) (sigma prm) (eps_abs prm) (eps_rel prm)
    (eps_primal_inf prm) (eps_dual_inf prm) (max_iter prm) (stop_check_iter prm)
    v (polish_iter prm) (delta prm).

(** [min x^2 - 4 x] with a free constraint row. *)
Definition scalar_free : QuadraticProgram :=
  mkQP (scalar 2) [-4] (scalar 1) [neg_infinity] [infinity].

(** The default options, with the stopping criteria checked at every pass. *)
Definition check_every_pass : SolverParams := with_stop_check_iter 1 default_params.
End Examples.

(** ** Dimensions *)

Section Dimensions.
Context {backend : LDLT}.

(** The sizes the types of the source fix: [q] has [n = cols A] entries,
    [l] and [u] have [m = rows A], and [A] holds [m] rows. *)
Definition problem_dims (pbm : QuadraticProgram) : Prop :=
  length (coeffs (A pbm)) = rows (A pbm)
  /\ length (q pbm) = cols (A pbm)
  /\ length (l pbm) = rows (A pbm)
  /\ length (u pbm) = rows (A pbm).

Definition hotstart_dims (pbm : QuadraticProgram) (hotstart : option Solution) : Prop :=
  match hotstart with
  | Some hs => length (primal hs) = cols (A pbm) /\ length (dual hs) = rows (A pbm)
  | None => True
  end.

Definition iterates_dims (pbm : QuadraticProgram) (st : Iterates) : Prop :=
  length (cur_x st) = cols (A pbm)
  /\ length (cur_z st) = rows (A pbm)
  /\ length (cur_y st) = rows (A pbm).

(** [solve(b)] returns [x(n_)], a vector of the size [n_ = A.cols()] of the
    factorized matrix, which is the size of [b]. *)
Definition solve_keeps_size : Prop :=
  forall (M : Matrix) (b : Vec),
    rows M = cols M -> length b = cols M ->
    length (solve (factorize M) b) = cols M.
End Dimensions.

(** ** Runs of the loop *)

Section Runs.
Context {backend : LDLT}.
Variables (F : Factor) (pbm : QuadraticProgram) (prm : SolverParams) (st0 : Iterates).

(** Passes [k], ..., [j - 1] go through: the counter differs from
    [max_iter], the stopping-check guard has a result, and when the check is
    due no criterion is met. *)
Definition quiet_passes (k j : nat) : Prop :=
  forall p, (k <= p < j)%nat ->
    counter p <> max_iter prm
    /\ exists due, stop_check_due prm (counter p) = Some due
         /\ (due = true -> criterion_met F pbm prm (committed F pbm prm st0 p) = false).
End Runs.

(** ** More concrete problems *)

Module MoreExamples.
Local Open Scope float_scope.

(** [min -x1  s.t.  0 <= x2]: unbounded below. *)
Definition unbounded_below : QuadraticProgram :=
  mkQP (mkMatrix 2 2 [[0; 0]; [0; 0]]) [-1; 0] (mkMatrix 1 2 [[0; 1]]) [0] [infinity].

(** [1 <= x1 <= 2] and [-1 <= x1 <= 0]: bounds in order, no feasible point. *)
Definition contradictory_rows : QuadraticProgram :=
  mkQP (mkMatrix 2 2 [[1; 0]; [0; 1]]) [0; 0] (mkMatrix 2 2 [[1; 0]; [1; 0]]) [1; -1] [2; 0].

(** [min x1^2 + x2^2 - 2 x1 - 5 x2  s.t.  x1 + x2 = 1]. *)
Definition equality_qp : QuadraticProgram :=
  mkQP (mkMatrix 2 2 [[2; 0]; [0; 2]]) [-2; -5] (mkMatrix 1 2 [[1; 1]]) [1] [1].


(** The cost matrix of [equality_qp] with another entry below the diagonal. *)
Definition lower_changed : Matrix := mkMatrix 2 2 [[2; 0]; [1000; 2]].
End MoreExamples.

(** ** Reading only the upper triangle *)

Section UpperTriangle.
Context {backend : LDLT}.

(** Two matrices of the same size with the same coefficients on and above
    the diagonal. *)
Definition same_upper (M M' : Matrix) : Prop :=
  rows M = rows M' /\ cols M = cols M'
  /\ forall i j, (i <= j)%nat -> (i < rows M)%nat -> (j < cols M)%nat ->
       coeff M i j = coeff M' i j.

(** The factorization is called with [UPLO = 'U']: of a square matrix it
    reads the upper triangle only. *)
Definition reads_upper_only : Prop :=
  forall M M', rows M = cols M -> same_upper M M' -> factorize M = factorize M'.

(** The problem with another cost matrix. *)
Definition with_P (P' : Matrix) (pbm : QuadraticProgram) : QuadraticProgram :=
  mkQP P' (q pbm) (A pbm) (l pbm) (u pbm).

(** Two cost matrices with the same coefficients on and above the diagonal
    of the leading [n x n] block. *)
Definition same_upper_block (n : nat) (M M' : Matrix) : Prop :=
  forall i j, (i <= j)%nat -> (j < n)%nat -> coeff M i j = coeff M' i j.
End UpperTriangle.

(** ** The sparse problem flavour: assembly of the system matrices

    [solveQP] and [polishQP] build their system matrices entry by entry
    when the problem is a [QuadraticProgramSparse]. A compressed
    [Eigen::SparseMatrix] is the list of its outer vectors (the columns of
    a column-major matrix, the rows of a row-major one), each the list of
    its stored entries [(inner index, value)] in storage order, which is
    what an [InnerIterator] walks. The matrix under assembly is a finite
    map from positions to values: [insert] has no defined result at a
    position that already holds an entry or lies outside the matrix,
    [coeffRef] creates a zero entry where there is none. [reserve] and
    [makeCompressed] do not change the entries and are left out. *)

Module SparseEigen.
Local Open Scope float_scope.

Record SparseMatrix := mkSparse {
  outerSize : nat;
  innerSize : nat;
  vectors : list (list (nat * float))
}.

(** The coefficient of an outer vector at an inner index, if stored. *)
Fixpoint find_inner (it : list (nat * float)) (i : nat) : option float :=
  match it with
  | [] => None
  | (index, value) :: it' => if (index =? i)%nat then Some value else find_inner it' i
  end.

(** The inner indices of an outer vector increase strictly from [lo] on
    and stay below [bound]: the storage invariant of a compressed matrix. *)
Fixpoint increasing_from (lo bound : nat) (it : list (nat * float)) : bool :=
  match it with
  | [] => true
  | (index, _) :: it' =>
      (lo <=? index)%nat && (index <? bound)%nat && increasing_from (S index) bound it'
  end.
Definition is_compressed (M : SparseMatrix) : bool :=
  (length (vectors M) =? outerSize M)%nat
  && forallb (increasing_from 0 (innerSize M)) (vectors M).

(** The dense matrix a sparse one stands for. *)
Definition dense_colmajor (M : SparseMatrix) : Matrix :=
  build (innerSize M) (outerSize M) (fun i j => default 0 (find_inner (vectors M !!! j) i)).
Definition dense_rowmajor (M : SparseMatrix) : Matrix :=
  build (outerSize M) (innerSize M) (fun i j => default 0 (find_inner (vectors M !!! i) j)).

(** A square sparse matrix under assembly. *)
Record Assembly := mkAssembly {
  dim : nat;
  stored : gmap (nat * nat) float
}.

Definition empty_matrix (k : nat) : Assembly := mkAssembly k ∅.
Definition sp_coeff (H : Assembly) (i j : nat) : float := default 0 (stored H !! (i, j)).

(** [H.insert(i, j) = v]. *)
Definition sp_insert (i j : nat) (v : float) (H : Assembly) : option Assembly :=
  if (i <? dim H)%nat && (j <? dim H)%nat then
    match stored H !! (i, j) with
    | None => Some (mkAssembly (dim H) (<[(i, j) := v]> (stored H)))
    | Some _ => None
    end
  else None.

(** [H.coeffRef(i, j) += s] and [H.coeffRef(i, j) -= s]. *)
Definition coeffRef_add (i j : nat) (s : float) (H : Assembly) : option Assembly :=
  if (i <? dim H)%nat && (j <? dim H)%nat then
    Some (mkAssembly (dim H) (<[(i, j) := sp_coeff H i j + s]> (stored H)))
  else None.
Definition coeffRef_sub (i j : nat) (s : float) (H : Assembly) : option Assembly :=
  if (i <? dim H)%nat && (j <? dim H)%nat then
    Some (mkAssembly (dim H) (<[(i, j) := sp_coeff H i j - s]> (stored H)))
  else None.

(** A counted loop over the assembly. *)
Fixpoint for_each (ks : list nat) (body : nat -> Assembly -> option Assembly)
    (H : Assembly) : option Assembly :=
  match ks with
  | [] => Some H
  | k :: rest => H' ← body k H; for_each rest body H'
  end.
End SparseEigen.
Export SparseEigen.

Module Sparse.
Record QuadraticProgramSparse := mkQPSparse {
  P : SparseMatrix;
  q : Vec;
  A : SparseMatrix;
  l : Vec;
  u : Vec
}.
End Sparse.

Section SparseAssembly.
Local Open Scope float_scope.

(** [for (PIter it(pbm.P, col); it && it.index() <= col; ++it)
       H.insert(it.index(), col) = it.value();] *)
Fixpoint insert_upper (col : nat) (it : list (nat * float)) (H : Assembly)
    : option Assembly :=
  match it with
  | [] => Some H
  | (index, value) :: it' =>
      if (index <=? col)%nat then
        H' ← sp_insert index col value H; insert_upper col it' H'
      else Some H
  end.

(** [for (AIter it(pbm.A, row); it; ++it) H.insert(it.index(), c) = it.value();] *)
Fixpoint insert_row (c : nat) (it : list (nat * float)) (H : Assembly)
    : option Assembly :=
  match it with
  | [] => Some H
  | (index, value) :: it' => H' ← sp_insert index c value H; insert_row c it' H'
  end.

(** The sparse assembly of [H] in [solveQP]. *)
Definition kkt_matrix_sparse (pbm : Sparse.QuadraticProgramSparse) (prm : SolverParams)
    : option Assembly :=
  let n := innerSize (Sparse.A pbm) in
  let m := outerSize (Sparse.A pbm) in
  H1 ← for_each (seq 0 n)
         (fun col H =>
            H' ← insert_upper col (vectors (Sparse.P pbm) !!! col) H;
            coeffRef_add col col (sigma prm) H')
         (empty_matrix (n + m));
  for_each (seq 0 m)
    (fun row H =>
       H' ← insert_row (n + row) (vectors (Sparse.A pbm) !!! row) H;
       sp_insert (n + row) (n + row) ((-1) / rho prm) H')
    H1.

(** The sparse assembly of the reduced [H] in [polishQP] and of its
    perturbed copy [Hp]. *)
Definition polish_H_sparse (pbm : Sparse.QuadraticProgramSparse) (n nl nu : nat)
    (LU_idx : list nat) : option Assembly :=
  H1 ← for_each (seq 0 n)
         (fun p_col H => insert_upper p_col (vectors (Sparse.P pbm) !!! p_col) H)
         (empty_matrix (n + nl + nu));
  for_each (seq 0 (nl + nu))
    (fun a_row H =>
       insert_row (n + a_row) (vectors (Sparse.A pbm) !!! (LU_idx !!! a_row)) H)
    H1.

Definition polish_Hp_sparse (H : Assembly) (n nl nu : nat) (dlt : float)
    : option Assembly :=
  Hp1 ← for_each (seq 0 n) (fun i Hp => coeffRef_add i i dlt Hp) H;
  for_each (seq 0 (nl + nu)) (fun i Hp => coeffRef_sub (n + i) (n + i) dlt Hp) Hp1.

(** The entries the loop over the columns of [P] leaves in column [j];
    [diag] is what becomes of the diagonal entry. *)
Definition upper_column (Pm : SparseMatrix) (diag : option float -> option float)
    (j i : nat) : option float :=
  if (i <? j)%nat then find_inner (vectors Pm !!! j) i
  else if (i =? j)%nat then diag (find_inner (vectors Pm !!! j) j)
  else None.

(** The dense problem a sparse one stands for. *)
Definition to_dense (pbm : Sparse.QuadraticProgramSparse) : QuadraticProgram :=
  mkQP (dense_colmajor (Sparse.P pbm)) (Sparse.q pbm)
       (dense_rowmajor (Sparse.A pbm)) (Sparse.l pbm) (Sparse.u pbm).

(** The assembly holds the upper triangle of a dense matrix and nothing
    below the diagonal. *)
Definition holds_upper_of (H : Assembly) (M : Matrix) : Prop :=
  dim H = rows M /\ dim H = cols M
  /\ (forall i j, (i <= j)%nat -> (j < dim H)%nat -> sp_coeff H i j = coeff M i j)
  /\ (forall i j, (j < i)%nat -> stored H !! (i, j) = None).
End SparseAssembly.

Module SparseExamples.
Import Examples.
Local Open Scope float_scope.

(** [min x1^2 + x1 x2 + x2^2 - 2 x1 - 5 x2  s.t.  x1 + x2 = 1, 0 <= x2 <= 3],
    both triangles of the cost matrix stored. *)
Definition coupled : Sparse.QuadraticProgramSparse :=
  Sparse.mkQPSparse
    (mkSparse 2 2 [[(0%nat, 2); (1%nat, 1)]; [(0%nat, 1); (1%nat, 2)]])
    [-2; -5]
    (mkSparse 2 2 [[(0%nat, 1); (1%nat, 1)]; [(1%nat, 1)]])
    [1; 0] [1; 3].

(** [coupled] with the first column of the cost matrix stored out of
    order. *)
Definition coupled_unsorted : Sparse.QuadraticProgramSparse :=
  Sparse.mkQPSparse
    (mkSparse 2 2 [[(1%nat, 1); (0%nat, 2)]; [(0%nat, 1); (1%nat, 2)]])
    [-2; -5]
    (mkSparse 2 2 [[(0%nat, 1); (1%nat, 1)]; [(1%nat, 1)]])
    [1; 0] [1; 3].
End SparseExamples.

(** * Theorems *)

(** ** Facts about binary64 comparisons used by the solver *)

Module FloatFacts.
Local Open Scope float_scope.

Lemma ltb_zero_asym x : (x <? 0) = true -> (0 <? x) = false.
Proof.
  rewrite !FloatAxioms.ltb_spec. change (Prim2SF 0) with (S754_zero false).
  destruct (Prim2SF x) as [s|s| |s m e]; try destruct s; cbn; congruence.
Qed.




End FloatFacts.

(** ** Signs, NaN and subtraction of binary64 values *)

Module FloatSigns.
Local Open Scope float_scope.













End FloatSigns.

(** ** The loop of solveQP: the 32-bit counter against the 64-bit cap *)

Section LoopFacts.
Context {backend : LDLT}.
Variables (F : Factor) (pbm : QuadraticProgram) (prm : SolverParams).

Lemma counter_incr k : uint_incr (counter k) = counter (S k).
Proof.
  unfold uint_incr, counter. rewrite Nat2Z.inj_succ, <- Z.add_1_r.
  apply Z.add_mod_idemp_l. unfold UINT_MODULUS, UINT_WIDTH. lia.
Qed.

Lemma counter_range k : (0 <= counter k < UINT_MODULUS)%Z.
Proof. unfold counter. apply Z.mod_pos_bound. unfold UINT_MODULUS, UINT_WIDTH. lia. Qed.

Lemma counter_small k : (Z.of_nat k < UINT_MODULUS)%Z -> counter k = Z.of_nat k.
Proof. intros. unfold counter. apply Z.mod_small. lia. Qed.

Lemma stopping_check_none fuel st :
  criterion_met F pbm prm st = false ->
  stopping_check fuel pbm prm st (admm_update F pbm prm st) = None.
Proof.
  unfold criterion_met, stopping_check. cbn zeta.
  destruct (optimal_test pbm prm st); [discriminate|].
  destruct (primal_infeasible_test _ _ _ _); [discriminate|].
  destruct (dual_infeasible_test _ _ _ _); [discriminate|]. reflexivity.
Qed.

Lemma loop_body_commit fuel i st :
  stop_check_iter prm <> 0%Z ->
  (stop_check_due prm i = Some true -> criterion_met F pbm prm st = false) ->
  loop_body fuel F pbm prm i st = Returns (inr (admm_update F pbm prm st)).
Proof.
  intros HK Hno. unfold loop_body. cbn zeta.
  destruct (stop_check_due prm i) as [[|]|] eqn:E.
  - rewrite stopping_check_none by auto. reflexivity.
  - reflexivity.
  - unfold stop_check_due, uint64_rem in E.
    destruct (Z.eqb_spec (stop_check_iter prm) 0); [contradiction|discriminate].
Qed.

(** While nothing stops the loop and the counter differs from [max_iter],
    the loop goes on from pass [k] as from pass [k + 1]. *)
Lemma admm_loop_step fuel st0 k :
  stop_check_iter prm <> 0%Z ->
  counter k <> max_iter prm ->
  (stop_check_due prm (counter k) = Some true -> criterion_met F pbm prm (committed F pbm prm st0 k) = false) ->
  admm_loop (S fuel) F pbm prm (counter k) k (committed F pbm prm st0 k)
  = admm_loop fuel F pbm prm (counter (S k)) (S k) (committed F pbm prm st0 (S k)).
Proof.
  intros HK Hne Hno. cbn [admm_loop].
  destruct (Z.eqb_spec (counter k) (max_iter prm)); [contradiction|].
  rewrite loop_body_commit by assumption. rewrite counter_incr. reflexivity.
Qed.

(** A cap outside the range of the counter is never hit. *)
Lemma admm_loop_never_exits st0 :
  stop_check_iter prm <> 0%Z ->
  (UINT_MODULUS <= max_iter prm)%Z ->
  never_stops F pbm prm st0 None ->
  forall fuel k,
    admm_loop fuel F pbm prm (counter k) k (committed F pbm prm st0 k) = OutOfFuel.
Proof.
  intros HK Hbig Hno fuel. induction fuel as [|fuel IH]; intros k; [reflexivity|].
  rewrite admm_loop_step; auto.
  pose proof (counter_range k). lia.
Qed.

(** A cap within the range of the counter is hit after exactly that many
    passes. *)
Lemma admm_loop_exhausts st0 (N : nat) :
  stop_check_iter prm <> 0%Z ->
  max_iter prm = Z.of_nat N ->
  (max_iter prm < UINT_MODULUS)%Z ->
  never_stops F pbm prm st0 (Some N) ->
  forall d k fuel, (k + d = N)%nat -> (d < fuel)%nat ->
    admm_loop fuel F pbm prm (counter k) k (committed F pbm prm st0 k)
    = Returns (mkReport
        (mkSolution MaxIterations (cur_x (committed F pbm prm st0 N)) (cur_y (committed F pbm prm st0 N))) 1 N).
Proof.
  intros HK HN Hsmall Hno d. induction d as [|d IH]; intros k fuel Hk Hf.
  - destruct fuel as [|fuel]; [lia|]. cbn [admm_loop].
    assert (k = N) as -> by lia.
    rewrite counter_small by lia. rewrite HN, Z.eqb_refl. reflexivity.
  - destruct fuel as [|fuel]; [lia|].
    rewrite admm_loop_step; auto.
    + apply IH; lia.
    + rewrite counter_small by lia. lia.
    + apply Hno. lia.
Qed.
End LoopFacts.

(** ** The pre-flight check *)

Section Preflight.
Local Open Scope float_scope.
Import FloatFacts FloatSigns.














End Preflight.

Section PreflightClaims.
Context {backend : LDLT}.
Local Open Scope float_scope.



(** C10. With no constraint row the first reduction of the pre-flight check
    runs over an empty vector: the check has no result, and neither has
    [solveQP]; the check has a result exactly when there is a row. *)
Theorem no_constraint_row_undefined (pbm : QuadraticProgram) :
  length (l pbm) = rows (A pbm) ->
  length (u pbm) = rows (A pbm) ->
  (feasible_set_empty pbm = None <-> rows (A pbm) = 0%nat)
  /\ (rows (A pbm) = 0%nat ->
      minCoeff (vsub (u pbm) (l pbm)) = None
      /\ maxCoeff (l pbm) = None
      /\ minCoeff (u pbm) = None
      /\ forall fuel prm hotstart, solveQP fuel pbm prm hotstart = Undefined).
Proof.
  intros Hl Hu.
  assert (rows (A pbm) = 0%nat -> feasible_set_empty pbm = None) as H0.
  { intros Hm. rewrite Hm in *. unfold feasible_set_empty.
    destruct (l pbm), (u pbm); try discriminate. reflexivity. }
  split; [split; [|exact H0]|].
  - intros Hnone. destruct (rows (A pbm)); [reflexivity|]. exfalso.
    unfold feasible_set_empty in Hnone.
    destruct (l pbm) as [|l0 lr], (u pbm) as [|u0 ur]; try discriminate.
    cbn in Hnone.
    repeat match type of Hnone with
           | context [if ?c then _ else _] => destruct c; cbn in Hnone
           end; discriminate.
  - intros Hm. pose proof (H0 Hm) as Hnone. rewrite Hm in *.
    destruct (l pbm), (u pbm); try discriminate.
    repeat split; try reflexivity.
    intros fuel prm hs. unfold solveQP, solveQP_report. rewrite Hnone. reflexivity.
Qed.
End PreflightClaims.



Lemma no_constraint_row_undefined_witness :
  solveQP (backend := ReferenceLDLT.backend) 3 Examples.unconstrained default_params None
  = Undefined.
Proof.
  apply (no_constraint_row_undefined (backend := ReferenceLDLT.backend)
           Examples.unconstrained); reflexivity.
Defined.

(** ** The iteration cap and the stopping-check period *)

Section CapClaims.
Context {backend : LDLT}.
Local Open Scope Z_scope.

Lemma stop_check_due_undefined_iff (prm : SolverParams) (i : Z) :
  stop_check_due prm i = None <-> stop_check_iter prm = 0.
Proof.
  unfold stop_check_due, uint64_rem.
  destruct (Z.eqb_spec (stop_check_iter prm) 0); cbn; split; congruence.
Qed.

(** Below [stop_check_iter - 1] no check is due. *)
Lemma stop_check_not_due (prm : SolverParams) (i : Z) :
  0 <= i < stop_check_iter prm - 1 ->
  stop_check_iter prm < UINT64_MODULUS ->
  stop_check_due prm i = Some false.
Proof.
  intros Hi HK. unfold stop_check_due, uint64_rem, uint64_sub.
  destruct (Z.eqb_spec (stop_check_iter prm) 0); [lia|]. cbn.
  rewrite (Z.mod_small i) by lia.
  rewrite (Z.mod_small (stop_check_iter prm - 1)) by (unfold UINT64_MODULUS in *; lia).
  destruct (Z.eqb_spec i (stop_check_iter prm - 1)); [lia|reflexivity].
Qed.

Lemma solveQP_report_enters_loop (fuel : nat) (pbm : QuadraticProgram)
    (prm : SolverParams) (hotstart : option Solution) :
  feasible_set_empty pbm = Some false ->
  info (factorize (kkt_matrix pbm prm)) = 0 ->
  solveQP_report fuel pbm prm hotstart
  = admm_loop fuel (factorize (kkt_matrix pbm prm)) pbm prm 0 0
      (init_iterates pbm hotstart).
Proof.
  intros Hpre Hinfo. unfold solveQP_report. rewrite Hpre. cbn zeta.
  rewrite Hinfo. reflexivity.
Qed.

(** C2. A cap of [2^32] or more is outside the range of the loop counter:
    when no stopping criterion is ever met, [solveQP] does not return,
    whatever the fuel. *)
Theorem max_iter_beyond_counter_range (fuel : nat) (pbm : QuadraticProgram)
    (prm : SolverParams) (hotstart : option Solution) :
  feasible_set_empty pbm = Some false ->
  info (factorize (kkt_matrix pbm prm)) = 0 ->
  stop_check_iter prm <> 0 ->
  UINT_MODULUS <= max_iter prm ->
  never_stops (factorize (kkt_matrix pbm prm)) pbm prm (init_iterates pbm hotstart) None ->
  solveQP fuel pbm prm hotstart = OutOfFuel.
Proof.
  intros Hpre Hinfo HK Hbig Hno. unfold solveQP.
  rewrite solveQP_report_enters_loop by assumption.
  change 0 with (counter 0) at 1.
  change (init_iterates pbm hotstart)
    with (committed (factorize (kkt_matrix pbm prm)) pbm prm (init_iterates pbm hotstart) 0).
  rewrite admm_loop_never_exits by assumption. reflexivity.
Qed.

(** Within the range of the counter [max_iter] is a cap: when no stopping
    criterion is met, the loop body is entered exactly [max_iter] times and
    [MaxIterations] is returned with the last committed [x] and [y]. *)
Theorem max_iter_caps_within_counter_range (fuel N : nat) (pbm : QuadraticProgram)
    (prm : SolverParams) (hotstart : option Solution) :
  feasible_set_empty pbm = Some false ->
  info (factorize (kkt_matrix pbm prm)) = 0 ->
  stop_check_iter prm <> 0 ->
  max_iter prm = Z.of_nat N ->
  max_iter prm < UINT_MODULUS ->
  never_stops (factorize (kkt_matrix pbm prm)) pbm prm (init_iterates pbm hotstart) (Some N) ->
  (N < fuel)%nat ->
  solveQP_report fuel pbm prm hotstart
  = Returns (mkReport
      (mkSolution MaxIterations
         (cur_x (committed (factorize (kkt_matrix pbm prm)) pbm prm
                   (init_iterates pbm hotstart) N))
         (cur_y (committed (factorize (kkt_matrix pbm prm)) pbm prm
                   (init_iterates pbm hotstart) N)))
      1 N).
Proof.
  intros Hpre Hinfo HK HN Hsmall Hno Hfuel.
  rewrite solveQP_report_enters_loop by assumption.
  change 0 with (counter 0) at 1.
  change (init_iterates pbm hotstart)
    with (committed (factorize (kkt_matrix pbm prm)) pbm prm (init_iterates pbm hotstart) 0) at 1.
  apply (admm_loop_exhausts _ _ _ _ N HK HN Hsmall Hno N 0%nat); lia.
Qed.

(** C9. With [max_iter < stop_check_iter] no check is ever due; when
    [max_iter] is [2^32] or more the loop then has no exit at all, and
    [solveQP] does not return, whatever the problem data and the fuel. *)
Theorem no_check_no_exit (fuel : nat) (pbm : QuadraticProgram)
    (prm : SolverParams) (hotstart : option Solution) :
  feasible_set_empty pbm = Some false ->
  info (factorize (kkt_matrix pbm prm)) = 0 ->
  max_iter prm < stop_check_iter prm < UINT64_MODULUS ->
  UINT_MODULUS <= max_iter prm ->
  (forall k, stop_check_due prm (counter k) = Some false)
  /\ solveQP fuel pbm prm hotstart = OutOfFuel.
Proof.
  intros Hpre Hinfo HK Hbig.
  assert (forall k, stop_check_due prm (counter k) = Some false) as Hdue.
  { intros k. pose proof (counter_range k). apply stop_check_not_due; lia. }
  split; [exact Hdue|]. unfold solveQP.
  rewrite solveQP_report_enters_loop by assumption.
  change 0 with (counter 0) at 1.
  change (init_iterates pbm hotstart)
    with (committed (factorize (kkt_matrix pbm prm)) pbm prm (init_iterates pbm hotstart) 0).
  pose proof (counter_range 0).
  rewrite admm_loop_never_exits; [reflexivity|lia|lia|].
  intros k _ Hk. rewrite Hdue in Hk. discriminate.
Qed.

(** With [max_iter < stop_check_iter] and [max_iter] within the range of the
    counter, no check is due and [MaxIterations] is returned after
    [max_iter] passes, whatever the problem data. *)
Theorem no_check_max_iterations (fuel N : nat) (pbm : QuadraticProgram)
    (prm : SolverParams) (hotstart : option Solution) :
  feasible_set_empty pbm = Some false ->
  info (factorize (kkt_matrix pbm prm)) = 0 ->
  max_iter prm = Z.of_nat N ->
  max_iter prm < stop_check_iter prm < UINT64_MODULUS ->
  max_iter prm < UINT_MODULUS ->
  (N < fuel)%nat ->
  (forall k, (k < N)%nat -> stop_check_due prm (counter k) = Some false)
  /\ solveQP_report fuel pbm prm hotstart
     = Returns (mkReport
         (mkSolution MaxIterations
            (cur_x (committed (factorize (kkt_matrix pbm prm)) pbm prm
                      (init_iterates pbm hotstart) N))
            (cur_y (committed (factorize (kkt_matrix pbm prm)) pbm prm
                      (init_iterates pbm hotstart) N)))
         1 N).
Proof.
  intros Hpre Hinfo HN HK Hsmall Hfuel.
  assert (forall k, (k < N)%nat -> stop_check_due prm (counter k) = Some false) as Hdue.
  { intros k Hk. rewrite counter_small by lia. apply stop_check_not_due; lia. }
  split; [exact Hdue|].
  rewrite solveQP_report_enters_loop by assumption.
  change 0 with (counter 0) at 1.
  change (init_iterates pbm hotstart)
    with (committed (factorize (kkt_matrix pbm prm)) pbm prm (init_iterates pbm hotstart) 0) at 1.
  assert (never_stops (factorize (kkt_matrix pbm prm)) pbm prm
            (init_iterates pbm hotstart) (Some N)) as Hno.
  { intros k Hk Hc. rewrite Hdue in Hc by assumption. discriminate. }
  assert (stop_check_iter prm <> 0) as HK0 by lia.
  apply (admm_loop_exhausts _ _ _ _ N HK0 HN Hsmall Hno N 0%nat); lia.
Qed.

(** C8. With [stop_check_iter = 0] the remainder in the stopping-check guard
    has no result; [solveQP] has none either once the loop body is entered,
    which takes [max_iter >= 1]. With [max_iter = 0] the guard is never
    evaluated and [MaxIterations] is returned with the initial iterates. *)
Theorem zero_stop_check_iter (fuel : nat) (pbm : QuadraticProgram)
    (prm : SolverParams) (hotstart : option Solution) :
  feasible_set_empty pbm = Some false ->
  info (factorize (kkt_matrix pbm prm)) = 0 ->
  stop_check_iter prm = 0 ->
  (forall i, stop_check_due prm i = None)
  /\ (max_iter prm <> 0 -> solveQP (S fuel) pbm prm hotstart = Undefined)
  /\ (max_iter prm = 0 ->
      solveQP (S fuel) pbm prm hotstart
      = Returns (mkSolution MaxIterations
                   (cur_x (init_iterates pbm hotstart))
                   (cur_y (init_iterates pbm hotstart)))).
Proof.
  intros Hpre Hinfo HK.
  assert (forall i, stop_check_due prm i = None) as Hdue.
  { intros i. apply stop_check_due_undefined_iff, HK. }
  split; [exact Hdue|]. unfold solveQP.
  rewrite solveQP_report_enters_loop by assumption. cbn [admm_loop]. split.
  - intros Hmax. destruct (Z.eqb_spec 0 (max_iter prm)); [congruence|].
    unfold loop_body. cbn zeta. rewrite Hdue. reflexivity.
  - intros ->. reflexivity.
Qed.
End CapClaims.

Section CapInstances.
Import Examples.
Local Open Scope Z_scope.
Import ReferenceLDLT.

Lemma max_iter_beyond_counter_range_witness :
  max_iter (with_stop_check_iter (2 ^ 33) default_params) = UINT64_MAX
  /\ solveQP 1000 scalar_box
       (with_stop_check_iter (2 ^ 33) default_params) None
     = OutOfFuel.
Proof.
  split; [reflexivity|].
  apply (max_iter_beyond_counter_range 1000 scalar_box
           (with_stop_check_iter (2 ^ 33) default_params) None).
  - reflexivity.
  - reflexivity.
  - discriminate.
  - apply Z.leb_le. reflexivity.
  - intros k _ Hdue. pose proof (counter_range k) as Hk.
    rewrite stop_check_not_due in Hdue.
    + discriminate Hdue.
    + change (stop_check_iter (with_stop_check_iter (2 ^ 33) default_params)) with (2 ^ 33).
      unfold UINT_MODULUS, UINT_WIDTH in Hk. lia.
    + reflexivity.
Defined.

Lemma max_iter_caps_within_counter_range_witness :
  solveQP_report 10 scalar_box (with_max_iter 3 default_params) None
  = Returns (mkReport
      (mkSolution MaxIterations
         (cur_x (committed (factorize (kkt_matrix scalar_box (with_max_iter 3 default_params)))
                   scalar_box (with_max_iter 3 default_params)
                   (init_iterates scalar_box None) 3))
         (cur_y (committed (factorize (kkt_matrix scalar_box (with_max_iter 3 default_params)))
                   scalar_box (with_max_iter 3 default_params)
                   (init_iterates scalar_box None) 3)))
      1 3).
Proof.
  apply (max_iter_caps_within_counter_range 10 3 scalar_box
           (with_max_iter 3 default_params) None).
  - reflexivity.
  - reflexivity.
  - discriminate.
  - reflexivity.
  - reflexivity.
  - intros k Hk Hdue. rewrite counter_small in Hdue.
    + rewrite stop_check_not_due in Hdue.
      * discriminate Hdue.
      * change (stop_check_iter (with_max_iter 3 default_params)) with 10. lia.
      * reflexivity.
    + unfold UINT_MODULUS, UINT_WIDTH. lia.
  - lia.
Defined.

Lemma no_check_no_exit_witness :
  max_iter (with_stop_check_iter (2 ^ 32 + 1) (with_max_iter (2 ^ 32) default_params))
    < stop_check_iter (with_stop_check_iter (2 ^ 32 + 1) (with_max_iter (2 ^ 32) default_params))
  /\ solveQP 1000 scalar_box
       (with_stop_check_iter (2 ^ 32 + 1) (with_max_iter (2 ^ 32) default_params)) None
     = OutOfFuel.
Proof.
  split; [reflexivity|].
  apply (no_check_no_exit 1000 scalar_box
           (with_stop_check_iter (2 ^ 32 + 1) (with_max_iter (2 ^ 32) default_params)) None).
  - reflexivity.
  - reflexivity.
  - split; reflexivity.
  - apply Z.leb_le. reflexivity.
Defined.

Lemma no_check_max_iterations_witness :
  solveQP_report 10 scalar_box
    (with_stop_check_iter 8 (with_max_iter 3 default_params)) None
  = Returns (mkReport
      (mkSolution MaxIterations
         (cur_x (committed
                   (factorize (kkt_matrix scalar_box
                                 (with_stop_check_iter 8 (with_max_iter 3 default_params))))
                   scalar_box (with_stop_check_iter 8 (with_max_iter 3 default_params))
                   (init_iterates scalar_box None) 3))
         (cur_y (committed
                   (factorize (kkt_matrix scalar_box
                                 (with_stop_check_iter 8 (with_max_iter 3 default_params))))
                   scalar_box (with_stop_check_iter 8 (with_max_iter 3 default_params))
                   (init_iterates scalar_box None) 3)))
      1 3).
Proof.
  apply (no_check_max_iterations 10 3 scalar_box
           (with_stop_check_iter 8 (with_max_iter 3 default_params)) None).
  - reflexivity.
  - reflexivity.
  - reflexivity.
  - split; reflexivity.
  - reflexivity.
  - lia.
Defined.

(** With [stop_check_iter = 0] and [max_iter = 0] the call is defined: the
    loop body is never entered. *)
Lemma zero_stop_check_iter_zero_max_iter :
  feasible_set_empty scalar_box = Some false
  /\ info (factorize
             (kkt_matrix scalar_box (with_stop_check_iter 0 (with_max_iter 0 default_params))))
     = 0
  /\ stop_check_iter (with_stop_check_iter 0 (with_max_iter 0 default_params)) = 0
  /\ solveQP 1 scalar_box
       (with_stop_check_iter 0 (with_max_iter 0 default_params)) None
     = Returns (mkSolution MaxIterations [0%float] [0%float])
  /\ solveQP 1 scalar_box
       (with_stop_check_iter 0 (with_max_iter 0 default_params)) None
     <> Undefined.
Proof. repeat split; try reflexivity. discriminate. Qed.

Lemma zero_stop_check_iter_witness :
  solveQP 1 scalar_box (with_stop_check_iter 0 default_params) None
  = Undefined.
Proof.
  apply (zero_stop_check_iter 0 scalar_box
           (with_stop_check_iter 0 default_params) None).
  - reflexivity.
  - reflexivity.
  - reflexivity.
  - discriminate.
Defined.
End CapInstances.

(** ** The stopping criteria *)

Section StoppingClaims.
Context {backend : LDLT}.
Local Open Scope float_scope.
Variables (pbm : QuadraticProgram) (prm : SolverParams).

(** The scan with its early exits computes the sum as the specification
    words it. *)
Lemma primal_inf_scan_spec (dy : Vec) (idxs : list nat) : forall acc,
  primal_inf_scan pbm prm dy (lpNormInf dy) idxs acc
  = if existsb (certificate_destroyed pbm prm dy) idxs then infinity
    else fold_left PrimFloat.add (flat_map (support_terms pbm dy) idxs) acc.
Proof.
  induction idxs as [|i rest IH]; intros acc; [reflexivity|].
  cbn [primal_inf_scan existsb flat_map]. unfold certificate_destroyed at 1.
  unfold support_terms at 1. rewrite fold_left_app.
  destruct (u pbm !!! i =? infinity); cbn [negb andb orb].
  - destruct (eps_primal_inf prm * lpNormInf dy <? dy !!! i); cbn [orb]; [reflexivity|].
    destruct (l pbm !!! i =? neg_infinity); cbn [negb andb orb].
    + destruct (dy !!! i <? - eps_primal_inf prm * lpNormInf dy); cbn [orb fold_left];
        [reflexivity | apply IH].
    + cbn [fold_left]. apply IH.
  - destruct (l pbm !!! i =? neg_infinity); cbn [negb andb orb].
    + destruct (dy !!! i <? - eps_primal_inf prm * lpNormInf dy); cbn [orb fold_left];
        [reflexivity | apply IH].
    + cbn [fold_left]. apply IH.
Qed.

Lemma u_dyp_plus_l_dyn_refines (dy : Vec) :
  u_dyp_plus_l_dyn pbm prm dy = u_dyp_plus_l_dyn_spec pbm prm dy.
Proof. apply primal_inf_scan_spec. Qed.

(** The loop that runs while [dual_infeasible] holds computes the
    conjunction over all constraints. *)
Lemma dual_inf_scan_forallb (Adx : Vec) (dx_norm : float) (idxs : list nat) : forall b,
  dual_inf_scan pbm prm Adx dx_norm idxs b
  = b && forallb (dual_inf_row pbm prm Adx dx_norm) idxs.
Proof.
  induction idxs as [|i rest IH]; intros b; cbn.
  - destruct b; reflexivity.
  - destruct b; [|reflexivity]. rewrite IH. reflexivity.
Qed.

Lemma dual_infeasible_test_refines (st nxt : Iterates) :
  dual_infeasible_test pbm prm st nxt
  = dual_certificate_spec pbm prm (vsub (cur_x nxt) (cur_x st)).
Proof.
  unfold dual_infeasible_test, dual_certificate_spec. cbn zeta.
  rewrite dual_inf_scan_forallb. reflexivity.
Qed.

(** C1 (amended). At a pass where the check is due, the optimality test is
    the conjunction of the primal and the dual residual test on the iterates
    [x], [y], [z] before the commit, both tolerance terms of the dual test
    being [eps_abs]. When it holds, [solveQP] returns the solution
    [{Optimal, x, y}] as it is if [polish] is off, and as [polishQP] leaves
    it if [polish] is on. When it fails, whatever [solveQP] returns at this
    pass is an infeasibility verdict with empty vectors. *)
Theorem optimality_test_decides (fuel : nat) (F : Factor) (i : Z) (st : Iterates) :
  stop_check_due prm i = Some true ->
  let Px := mul_vec (P pbm) (cur_x st) in
  let Ax := mul_vec (A pbm) (cur_x st) in
  let Aty := tmul_vec (A pbm) (cur_y st) in
  let residuals_small :=
    (lpNormInf (vsub Ax (cur_z st))
       <=? eps_abs prm + eps_rel prm * std_max (lpNormInf Ax) (lpNormInf (cur_z st)))
    && (lpNormInf (vadd (vadd Px (q pbm)) Aty)
       <=? eps_abs prm
           + eps_abs prm * std_max (std_max (lpNormInf Px) (lpNormInf (q pbm))) (lpNormInf Aty)) in
  let sol := mkSolution Optimal (cur_x st) (cur_y st) in
  (residuals_small = true ->
     loop_body fuel F pbm prm i st
     = if polish prm then omap inl (polishQP fuel pbm sol prm) else Returns (inl sol))
  /\ (residuals_small = false ->
      forall s, loop_body fuel F pbm prm i st = Returns (inl s) ->
        (code s = PrimalInfeasible \/ code s = DualInfeasible)
        /\ primal s = [] /\ dual s = [])
  /\ (polish prm = false ->
      (loop_body fuel F pbm prm i st = Returns (inl sol) <-> residuals_small = true)).
Proof.
  intros Hdue Px Ax Aty residuals_small sol.
  assert (optimal_test pbm prm st = residuals_small) as Hopt by reflexivity.
  assert (residuals_small = false ->
      forall s, loop_body fuel F pbm prm i st = Returns (inl s) ->
        (code s = PrimalInfeasible \/ code s = DualInfeasible)
        /\ primal s = [] /\ dual s = []) as Hfalse.
  { intros Hr s. unfold loop_body, stopping_check. cbn zeta. rewrite Hdue, Hopt, Hr.
    destruct (primal_infeasible_test _ _ _ _); [intros [= <-]; cbn; auto|].
    destruct (dual_infeasible_test _ _ _ _); [intros [= <-]; cbn; auto|].
    discriminate. }
  assert (residuals_small = true ->
     loop_body fuel F pbm prm i st
     = if polish prm then omap inl (polishQP fuel pbm sol prm) else Returns (inl sol)) as Htrue.
  { intros Hr. unfold loop_body, stopping_check. cbn zeta. rewrite Hdue, Hopt, Hr.
    destruct (polish prm); reflexivity. }
  split; [exact Htrue|]. split; [exact Hfalse|]. intros Hpolish. split.
  - intros Hret. destruct residuals_small eqn:Hr; [reflexivity|].
    destruct (Hfalse eq_refl _ Hret) as [[Hc|Hc] _]; discriminate.
  - intros Hr. rewrite (Htrue Hr), Hpolish. reflexivity.
Qed.

(** C4. At a check where Optimal was not declared, [u_dyp_plus_l_dyn] is the
    sum the specification describes, and [PrimalInfeasible] is returned with
    empty vectors exactly when
    [max(|A^T dy|, u_dyp_plus_l_dyn) < eps_primal_inf * |dy|]. *)
Theorem primal_infeasibility_certificate (fuel : nat) (F : Factor) (i : Z) (st : Iterates) :
  stop_check_due prm i = Some true ->
  optimal_test pbm prm st = false ->
  let dy := vsub (cur_y (admm_update F pbm prm st)) (cur_y st) in
  u_dyp_plus_l_dyn pbm prm dy = u_dyp_plus_l_dyn_spec pbm prm dy
  /\ (loop_body fuel F pbm prm i st = Returns (inl (mkSolution PrimalInfeasible [] []))
      <-> (std_max (lpNormInf (tmul_vec (A pbm) dy)) (u_dyp_plus_l_dyn_spec pbm prm dy)
             <? eps_primal_inf prm * lpNormInf dy) = true).
Proof.
  intros Hdue Hopt dy. split; [apply u_dyp_plus_l_dyn_refines|].
  rewrite <- u_dyp_plus_l_dyn_refines.
  unfold loop_body, stopping_check. cbn zeta. rewrite Hdue, Hopt.
  change (std_max (lpNormInf (tmul_vec (A pbm) dy)) (u_dyp_plus_l_dyn pbm prm dy)
            <? eps_primal_inf prm * lpNormInf dy)
    with (primal_infeasible_test pbm prm st (admm_update F pbm prm st)).
  destruct (primal_infeasible_test _ _ _ _).
  - split; reflexivity.
  - destruct (dual_infeasible_test _ _ _ _); split; discriminate.
Qed.

(** C5. At a check where neither Optimal nor PrimalInfeasible was declared,
    [DualInfeasible] is returned with empty vectors exactly when the three
    conditions on [dx = x_next - x] hold. *)
Theorem dual_infeasibility_certificate (fuel : nat) (F : Factor) (i : Z) (st : Iterates) :
  stop_check_due prm i = Some true ->
  optimal_test pbm prm st = false ->
  primal_infeasible_test pbm prm st (admm_update F pbm prm st) = false ->
  let dx := vsub (cur_x (admm_update F pbm prm st)) (cur_x st) in
  let Adx := mul_vec (A pbm) dx in
  loop_body fuel F pbm prm i st = Returns (inl (mkSolution DualInfeasible [] []))
  <-> (lpNormInf (mul_vec (P pbm) dx) <=? eps_dual_inf prm * lpNormInf dx) = true
      /\ (dot (q pbm) dx <=? eps_dual_inf prm * lpNormInf dx) = true
      /\ forall k, (k < rows (A pbm))%nat ->
           (if u pbm !!! k =? infinity
            then (- eps_dual_inf prm) * lpNormInf dx <=? Adx !!! k
            else if l pbm !!! k =? neg_infinity
            then Adx !!! k <=? eps_dual_inf prm * lpNormInf dx
            else abs (Adx !!! k) <? eps_dual_inf prm * lpNormInf dx) = true.
Proof.
  intros Hdue Hopt Hpi dx Adx.
  unfold loop_body, stopping_check. cbn zeta. rewrite Hdue, Hopt, Hpi.
  rewrite dual_infeasible_test_refines. fold dx.
  assert (dual_certificate_spec pbm prm dx = true
          <-> (lpNormInf (mul_vec (P pbm) dx) <=? eps_dual_inf prm * lpNormInf dx) = true
      /\ (dot (q pbm) dx <=? eps_dual_inf prm * lpNormInf dx) = true
      /\ forall k, (k < rows (A pbm))%nat ->
           (if u pbm !!! k =? infinity
            then (- eps_dual_inf prm) * lpNormInf dx <=? Adx !!! k
            else if l pbm !!! k =? neg_infinity
            then Adx !!! k <=? eps_dual_inf prm * lpNormInf dx
            else abs (Adx !!! k) <? eps_dual_inf prm * lpNormInf dx) = true) as Hspec.
  { unfold dual_certificate_spec. cbn zeta. fold Adx.
    rewrite !andb_true_iff, forallb_forall.
    split.
    - intros [[H1 H2] H3]. repeat split; auto. intros k Hk. apply H3.
      apply in_seq. lia.
    - intros (H1 & H2 & H3). repeat split; auto. intros k Hk. apply H3.
      apply in_seq in Hk. lia. }
  rewrite <- Hspec.
  destruct (dual_certificate_spec pbm prm dx); split; try reflexivity; discriminate.
Qed.
End StoppingClaims.

Section StoppingInstances.
Import Examples MoreExamples ReferenceLDLT.
Local Open Scope float_scope.

(** C1 as stated fails when [polish] is on: at the first pass on
    [near_origin] the optimality test holds for [x = y = z = 0], and what is
    returned is the polished primal [-1/4096], not [x]; on [flat_cost] with
    [delta = 0] the code returned is [PolishFailed], not [Optimal]. *)
Lemma optimal_solution_is_polished :
  stop_check_due check_every_pass 0 = Some true
  /\ optimal_test near_origin check_every_pass (init_iterates near_origin None) = true
  /\ init_iterates near_origin None = mkIterates [0] [0] [0]
  /\ loop_body 10 (factorize (kkt_matrix near_origin check_every_pass))
       near_origin check_every_pass 0 (init_iterates near_origin None)
     = Returns (inl (mkSolution Optimal [-0x1p-12] [0]))
  /\ loop_body 10 (factorize (kkt_matrix near_origin check_every_pass))
       near_origin check_every_pass 0 (init_iterates near_origin None)
     <> Returns (inl (mkSolution Optimal [0] [0]))
  /\ solveQP 10 near_origin check_every_pass None
     = Returns (mkSolution Optimal [-0x1p-12] [0])
  /\ solveQP 10 flat_cost (with_delta 0 check_every_pass) None
     = Returns (mkSolution PolishFailed [0] [0]).
Proof.
  repeat split; try reflexivity.
  intros H.
  apply (f_equal (fun r => match r with
                           | Returns (inl s) =>
                               match primal s with v :: _ => v =? 0 | [] => true end
                           | _ => true
                           end)) in H.
  vm_compute in H. discriminate H.
Qed.

Lemma optimality_test_decides_witness :
  stop_check_due check_every_pass 0 = Some true
  /\ loop_body 10 (factorize (kkt_matrix near_origin check_every_pass))
       near_origin check_every_pass 0 (init_iterates near_origin None)
     = omap inl (polishQP 10 near_origin (mkSolution Optimal [0] [0]) check_every_pass).
Proof.
  split; [reflexivity|].
  apply (optimality_test_decides near_origin check_every_pass 10
           (factorize (kkt_matrix near_origin check_every_pass)) 0
           (init_iterates near_origin None) eq_refl).
  reflexivity.
Defined.

(** [contradictory_rows] before pass 39 and [unbounded_below] before pass 9:
    the passes at which the default parameters meet a certificate. *)
Local Abbreviation F_rows := (factorize (kkt_matrix contradictory_rows default_params)).
Local Abbreviation st_rows :=
  (committed F_rows contradictory_rows default_params
     (init_iterates contradictory_rows None) 39).
Local Abbreviation dy_rows :=
  (vsub (cur_y (admm_update F_rows contradictory_rows default_params st_rows))
        (cur_y st_rows)).
Local Abbreviation F_unb := (factorize (kkt_matrix unbounded_below default_params)).
Local Abbreviation st_unb :=
  (committed F_unb unbounded_below default_params (init_iterates unbounded_below None) 9).
Local Abbreviation dx_unb :=
  (vsub (cur_x (admm_update F_unb unbounded_below default_params st_unb))
        (cur_x st_unb)).

Lemma primal_infeasibility_certificate_witness :
  stop_check_due default_params 39 = Some true
  /\ optimal_test contradictory_rows default_params st_rows = false
  /\ u_dyp_plus_l_dyn contradictory_rows default_params dy_rows
     = u_dyp_plus_l_dyn_spec contradictory_rows default_params dy_rows
  /\ (u_dyp_plus_l_dyn_spec contradictory_rows default_params dy_rows <? 0) = true
  /\ (std_max (lpNormInf (tmul_vec (A contradictory_rows) dy_rows))
              (u_dyp_plus_l_dyn_spec contradictory_rows default_params dy_rows)
      <? eps_primal_inf default_params * lpNormInf dy_rows) = true
  /\ loop_body 10 F_rows contradictory_rows default_params 39 st_rows
     = Returns (inl (mkSolution PrimalInfeasible [] [])).
Proof.
  assert (stop_check_due default_params 39 = Some true) as Hdue by reflexivity.
  assert (optimal_test contradictory_rows default_params st_rows = false) as Hopt
    by (vm_compute; reflexivity).
  pose proof (primal_infeasibility_certificate contradictory_rows default_params 10
                F_rows 39 st_rows Hdue Hopt) as Hcert.
  cbv zeta in Hcert. destruct Hcert as [Hsum Hiff].
  assert ((std_max (lpNormInf (tmul_vec (A contradictory_rows) dy_rows))
                   (u_dyp_plus_l_dyn_spec contradictory_rows default_params dy_rows)
           <? eps_primal_inf default_params * lpNormInf dy_rows) = true) as Htest
    by (vm_compute; reflexivity).
  split; [exact Hdue|]. split; [exact Hopt|]. split; [exact Hsum|].
  split; [vm_compute; reflexivity|]. split; [exact Htest|].
  apply Hiff. exact Htest.
Defined.

Lemma dual_infeasibility_certificate_witness :
  stop_check_due default_params 9 = Some true
  /\ optimal_test unbounded_below default_params st_unb = false
  /\ primal_infeasible_test unbounded_below default_params st_unb
       (admm_update F_unb unbounded_below default_params st_unb) = false
  /\ loop_body 10 F_unb unbounded_below default_params 9 st_unb
     = Returns (inl (mkSolution DualInfeasible [] []))
  /\ (lpNormInf (mul_vec (P unbounded_below) dx_unb)
      <=? eps_dual_inf default_params * lpNormInf dx_unb) = true
  /\ (dot (q unbounded_below) dx_unb <=? eps_dual_inf default_params * lpNormInf dx_unb)
     = true
  /\ ((- eps_dual_inf default_params) * lpNormInf dx_unb
      <=? mul_vec (A unbounded_below) dx_unb !!! 0%nat) = true.
Proof.
  assert (stop_check_due default_params 9 = Some true) as Hdue by reflexivity.
  assert (optimal_test unbounded_below default_params st_unb = false) as Hopt
    by (vm_compute; reflexivity).
  assert (primal_infeasible_test unbounded_below default_params st_unb
            (admm_update F_unb unbounded_below default_params st_unb) = false) as Hpi
    by (vm_compute; reflexivity).
  assert (loop_body 10 F_unb unbounded_below default_params 9 st_unb
          = Returns (inl (mkSolution DualInfeasible [] []))) as Hret
    by (vm_compute; reflexivity).
  pose proof (dual_infeasibility_certificate unbounded_below default_params 10
                F_unb 9 st_unb Hdue Hopt Hpi) as Hcert.
  cbv zeta in Hcert. destruct (proj1 Hcert Hret) as (HP & Hq & Hrows).
  split; [exact Hdue|]. split; [exact Hopt|]. split; [exact Hpi|].
  split; [exact Hret|]. split; [exact HP|]. split; [exact Hq|].
  exact (Hrows 0%nat (Nat.lt_0_succ 0)).
Defined.
End StoppingInstances.

(** ** polishQP: failure, active set, refinement and update *)

Section PolishFacts.
Context {backend : LDLT}.
Local Open Scope float_scope.
Import FloatFacts.

Lemma count_active_filter (dl : Vec) (idxs : list nat) : forall nl nu,
  count_active idxs dl nl nu
  = (Nat.add nl (length (List.filter (fun i => (dl !!! i <? 0)%float) idxs)),
     Nat.add nu (length (List.filter (fun i => (0 <? dl !!! i)%float) idxs))).
Proof.
  induction idxs as [|idx rest IH]; intros nl nu; cbn.
  - f_equal; lia.
  - rewrite IH. destruct (dl !!! idx <? 0), (0 <? dl !!! idx); cbn; f_equal; lia.
Qed.

Lemma insert_at_boundary {T : Type} (l1 : list T) (p : T) (l2 : list T) (v : T) :
  <[length l1 := v]> (l1 ++ p :: l2) = l1 ++ v :: l2.
Proof. rewrite insert_app_r_alt by lia. rewrite Nat.sub_diag. reflexivity. Qed.

Ltac list_norm :=
  repeat (rewrite <- app_assoc || rewrite <- app_comm_cons); cbn [app].
Ltac length_norm :=
  repeat (rewrite length_app || cbn [length]).

(** The array [LU_idx] while it is filled: the entries written so far, then
    the slots still free, for the lower and for the upper part. *)
Lemma fill_LU_idx_layout (dl : Vec) (nl : nat) (idxs : list nat) :
  forall Ldone Lfree Udone Ufree,
  (length Ldone + length Lfree = nl)%nat ->
  (length (List.filter (fun i => (dl !!! i <? 0)%float) idxs) <= length Lfree)%nat ->
  (length (List.filter (fun i => (0 <? dl !!! i)%float) idxs) <= length Ufree)%nat ->
  fill_LU_idx idxs dl nl (Ldone ++ Lfree ++ Udone ++ Ufree) (length Ldone) (length Udone)
  = Ldone ++ List.filter (fun i => (dl !!! i <? 0)%float) idxs
      ++ drop (length (List.filter (fun i => (dl !!! i <? 0)%float) idxs)) Lfree
      ++ Udone ++ List.filter (fun i => (0 <? dl !!! i)%float) idxs
      ++ drop (length (List.filter (fun i => (0 <? dl !!! i)%float) idxs)) Ufree.
Proof.
  induction idxs as [|idx rest IH]; intros Ldone Lfree Udone Ufree Hnl HL HU.
  - reflexivity.
  - cbn [fill_LU_idx List.filter] in *.
    destruct (dl !!! idx <? 0) eqn:Eneg; destruct (0 <? dl !!! idx) eqn:Epos;
      cbn [length] in *.
    + destruct Lfree as [|p Lfree]; [cbn in HL; lia|].
      destruct Ufree as [|r Ufree]; [cbn in HU; lia|].
      cbn [length drop] in *.
      replace (Ldone ++ (p :: Lfree) ++ Udone ++ r :: Ufree)
        with (Ldone ++ p :: (Lfree ++ Udone ++ r :: Ufree)) by reflexivity.
      rewrite insert_at_boundary.
      replace (Ldone ++ idx :: Lfree ++ Udone ++ r :: Ufree)
        with ((Ldone ++ idx :: Lfree ++ Udone) ++ r :: Ufree) by (list_norm; reflexivity).
      replace (nl + length Udone)%nat with (length (Ldone ++ idx :: Lfree ++ Udone))
        by (length_norm; lia).
      rewrite insert_at_boundary.
      replace ((Ldone ++ idx :: Lfree ++ Udone) ++ idx :: Ufree)
        with ((Ldone ++ [idx]) ++ Lfree ++ (Udone ++ [idx]) ++ Ufree)
        by (list_norm; reflexivity).
      replace (S (length Ldone)) with (length (Ldone ++ [idx])) by (length_norm; lia).
      replace (S (length Udone)) with (length (Udone ++ [idx])) by (length_norm; lia).
      rewrite IH by (length_norm; lia). list_norm. reflexivity.
    + destruct Lfree as [|p Lfree]; [cbn in HL; lia|].
      cbn [length drop] in *.
      replace (Ldone ++ (p :: Lfree) ++ Udone ++ Ufree)
        with (Ldone ++ p :: (Lfree ++ Udone ++ Ufree)) by reflexivity.
      rewrite insert_at_boundary.
      replace (Ldone ++ idx :: Lfree ++ Udone ++ Ufree)
        with ((Ldone ++ [idx]) ++ Lfree ++ Udone ++ Ufree) by (list_norm; reflexivity).
      replace (S (length Ldone)) with (length (Ldone ++ [idx])) by (length_norm; lia).
      rewrite IH by (length_norm; lia). list_norm. reflexivity.
    + destruct Ufree as [|r Ufree]; [cbn in HU; lia|].
      cbn [length drop] in *.
      replace (Ldone ++ Lfree ++ Udone ++ r :: Ufree)
        with ((Ldone ++ Lfree ++ Udone) ++ r :: Ufree) by (list_norm; reflexivity).
      replace (nl + length Udone)%nat with (length (Ldone ++ Lfree ++ Udone))
        by (length_norm; lia).
      rewrite insert_at_boundary.
      replace ((Ldone ++ Lfree ++ Udone) ++ idx :: Ufree)
        with (Ldone ++ Lfree ++ (Udone ++ [idx]) ++ Ufree) by (list_norm; reflexivity).
      replace (S (length Udone)) with (length (Udone ++ [idx])) by (length_norm; lia).
      rewrite IH by (length_norm; lia). list_norm. reflexivity.
    + apply IH; assumption.
Qed.

Lemma active_counts_spec (pbm : QuadraticProgram) (sol : Solution) :
  active_counts pbm sol
  = (length (active_L pbm (dual sol)), length (active_U pbm (dual sol))).
Proof. unfold active_counts. rewrite count_active_filter. reflexivity. Qed.

(** [LU_idx] holds the indices of [L] in increasing order, then those of
    [U]. *)
Lemma active_indices_spec (pbm : QuadraticProgram) (sol : Solution) :
  active_indices pbm sol = active_L pbm (dual sol) ++ active_U pbm (dual sol).
Proof.
  unfold active_indices. rewrite active_counts_spec.
  pose proof (fill_LU_idx_layout (dual sol) (length (active_L pbm (dual sol)))
                (seq 0 (rows (A pbm))) [] (replicate (length (active_L pbm (dual sol))) 0%nat)
                [] (replicate (length (active_U pbm (dual sol))) 0%nat)) as H.
  cbn [app length] in H.
  rewrite !length_replicate in H. unfold active_L, active_U in *.
  rewrite replicate_add. rewrite H by lia.
  rewrite !drop_ge by (rewrite length_replicate; lia).
  rewrite app_nil_r. reflexivity.
Qed.
End PolishFacts.

Section PolishClaims.
Context {backend : LDLT}.
Local Open Scope float_scope.
Import FloatFacts.

Lemma active_L_bound (pbm : QuadraticProgram) (dl : Vec) (i : nat) :
  i ∈ active_L pbm dl <-> (i < rows (A pbm))%nat /\ (dl !!! i <? 0) = true.
Proof.
  unfold active_L. rewrite list_elem_of_In, filter_In, in_seq. intuition lia.
Qed.

Lemma active_U_bound (pbm : QuadraticProgram) (dl : Vec) (i : nat) :
  i ∈ active_U pbm dl <-> (i < rows (A pbm))%nat /\ (0 <? dl !!! i) = true.
Proof.
  unfold active_U. rewrite list_elem_of_In, filter_In, in_seq. intuition lia.
Qed.

(** No constraint is in both active sets, and none is listed twice. *)
Lemma active_sets_NoDup (pbm : QuadraticProgram) (dl : Vec) :
  NoDup (active_L pbm dl ++ active_U pbm dl).
Proof.
  apply NoDup_app. repeat split.
  - unfold active_L. apply NoDup_ListNoDup, List.NoDup_filter, List.seq_NoDup.
  - intros i HL HU. apply active_L_bound in HL as [_ HL].
    apply active_U_bound in HU as [_ HU].
    rewrite (ltb_zero_asym _ HL) in HU. discriminate.
  - unfold active_U. apply NoDup_ListNoDup, List.NoDup_filter, List.seq_NoDup.
Qed.

Lemma write_duals_length (ks LU_idx : list nat) (t_hat : Vec) (off base : nat) :
  forall dl, length (write_duals ks LU_idx t_hat off base dl) = length dl.
Proof.
  induction ks as [|k rest IH]; intros dl; cbn [write_duals]; [reflexivity|].
  rewrite IH. apply length_insert.
Qed.

(** An entry that no write addresses keeps its value. *)
Lemma write_duals_frame (ks LU_idx : list nat) (t_hat : Vec) (off base i : nat) :
  forall dl,
  (forall k, k ∈ ks -> LU_idx !!! (off + k)%nat <> i) ->
  write_duals ks LU_idx t_hat off base dl !! i = dl !! i.
Proof.
  induction ks as [|k rest IH]; intros dl Hne; cbn [write_duals]; [reflexivity|].
  rewrite IH by (intros k' Hk'; apply Hne; right; exact Hk').
  apply list_lookup_insert_ne. apply Hne. left.
Qed.

Lemma lookup_total_inj (LU_idx : list nat) (a b : nat) :
  NoDup LU_idx -> (a < length LU_idx)%nat -> (b < length LU_idx)%nat ->
  LU_idx !!! a = LU_idx !!! b -> a = b.
Proof.
  intros Hnd Ha Hb Heq.
  apply (NoDup_lookup LU_idx a b (LU_idx !!! a) Hnd).
  - apply list_lookup_lookup_total_lt, Ha.
  - rewrite Heq. apply list_lookup_lookup_total_lt, Hb.
Qed.

(** With distinct targets, the entry addressed by the [k]-th write holds the
    [k]-th value in the end. *)
Lemma write_duals_hit (ks LU_idx : list nat) (t_hat : Vec) (off base : nat) :
  NoDup LU_idx ->
  forall dl,
  NoDup ks ->
  (forall k, k ∈ ks -> (off + k < length LU_idx)%nat) ->
  (forall k, k ∈ ks -> (LU_idx !!! (off + k)%nat < length dl)%nat) ->
  forall k, k ∈ ks ->
    write_duals ks LU_idx t_hat off base dl !! (LU_idx !!! (off + k)%nat)
    = Some (t_hat !!! (base + k)%nat).
Proof.
  intros HLU. induction ks as [|k0 rest IH]; intros dl Hks Hin Hlt k Hk.
  - inversion Hk.
  - apply NoDup_cons in Hks as [Hk0 Hrest]. cbn [write_duals].
    apply elem_of_cons in Hk as [-> | Hk].
    + rewrite write_duals_frame.
      * apply list_lookup_insert_eq. apply Hlt. left.
      * intros k' Hk' Heq. apply lookup_total_inj in Heq; auto.
        -- assert (k' = k0) as -> by lia. contradiction.
        -- apply Hin. right. exact Hk'.
        -- apply Hin. left.
    + apply IH;
        [ exact Hrest
        | intros k' Hk'; apply Hin; right; exact Hk'
        | intros k' Hk'; rewrite length_insert; apply Hlt; right; exact Hk'
        | exact Hk ].
Qed.

Lemma refine_exhausts (F : Factor) (H : Matrix) (h : Vec) (bound : Z) (N : nat) :
  bound = Z.of_nat N ->
  (bound < UINT_MODULUS)%Z ->
  forall d k fuel t_hat, (k + d = N)%nat -> (d < fuel)%nat ->
    refine fuel F H h bound (counter k) t_hat
    = Returns (Nat.iter d (refine_step F H h) t_hat).
Proof.
  intros HN Hsmall d. induction d as [|d IH]; intros k fuel t_hat Hk Hf.
  - destruct fuel as [|fuel]; [lia|]. cbn [refine].
    rewrite counter_small by lia. replace (Z.of_nat k) with bound by lia.
    rewrite Z.eqb_refl. reflexivity.
  - destruct fuel as [|fuel]; [lia|]. cbn [refine].
    rewrite counter_small by lia.
    destruct (Z.eqb_spec (Z.of_nat k) bound); [lia|].
    rewrite <- (counter_small k) by lia. rewrite counter_incr.
    rewrite IH by lia. rewrite Nat.iter_succ_r. reflexivity.
Qed.

Lemma refine_never_exits (F : Factor) (H : Matrix) (h : Vec) (bound : Z) :
  (UINT_MODULUS <= bound)%Z ->
  forall fuel k t_hat, refine fuel F H h bound (counter k) t_hat = OutOfFuel.
Proof.
  intros Hbig fuel. induction fuel as [|fuel IH]; intros k t_hat; [reflexivity|].
  cbn [refine]. pose proof (counter_range k).
  destruct (Z.eqb_spec (counter k) bound); [lia|].
  rewrite counter_incr. apply IH.
Qed.

(** C6. When the factorization of the perturbed reduced matrix reports
    [info <> 0], [polishQP] sets the code to [PolishFailed] and returns with
    primal and dual as they were on entry, whatever the fuel. *)
Theorem polish_failure_keeps_vectors (fuel : nat) (pbm : QuadraticProgram)
    (sol : Solution) (prm : SolverParams) :
  info (polish_factor pbm sol prm) <> 0%Z ->
  polishQP fuel pbm sol prm = Returns (mkSolution PolishFailed (primal sol) (dual sol)).
Proof.
  intros Hinfo. unfold polishQP.
  destruct (Z.eqb_spec (info (polish_factor pbm sol prm)) 0); [contradiction|reflexivity].
Qed.

(** C7. A refinement count of [2^32] or more is outside the range of the
    loop counter: after a successful factorization [polishQP] does not
    return, whatever the fuel, and the solution is never updated. *)
Theorem polish_iter_beyond_counter_range (fuel : nat) (pbm : QuadraticProgram)
    (sol : Solution) (prm : SolverParams) :
  info (polish_factor pbm sol prm) = 0%Z ->
  (UINT_MODULUS <= polish_iter prm)%Z ->
  polishQP fuel pbm sol prm = OutOfFuel.
Proof.
  intros Hinfo Hbig. unfold polishQP, polish_t_hat. rewrite Hinfo. cbn [Z.eqb negb].
  destruct (active_counts pbm sol) as [nl nu].
  change 0%Z with (counter 0). rewrite refine_never_exits by assumption. reflexivity.
Qed.

(** Within the range of the counter: the active sets are [L] and [U],
    [LU_idx] lists [L] then [U], the refinement step is applied
    [polish_iter] times from zero, and the update writes [t_hat[:n]] into
    the primal and [t_hat[n + j]] into the dual of constraint [LU_idx[j]],
    leaving the other duals and the exit code as they were. *)
Theorem polish_updates_active_duals (fuel N : nat) (pbm : QuadraticProgram)
    (sol : Solution) (prm : SolverParams) :
  length (dual sol) = rows (A pbm) ->
  info (polish_factor pbm sol prm) = 0%Z ->
  polish_iter prm = Z.of_nat N ->
  (polish_iter prm < UINT_MODULUS)%Z ->
  (N < fuel)%nat ->
  let n := cols (A pbm) in
  let L := active_L pbm (dual sol) in
  let U := active_U pbm (dual sol) in
  let t_hat :=
    Nat.iter N
      (refine_step (polish_factor pbm sol prm)
         (polish_H pbm n (length L) (length U) (L ++ U))
         (polish_rhs pbm (length L) (length U) (L ++ U)))
      (setZero (n + length L + length U)) in
  active_counts pbm sol = (length L, length U)
  /\ active_indices pbm sol = L ++ U
  /\ exists sol',
       polishQP fuel pbm sol prm = Returns sol'
       /\ code sol' = code sol
       /\ primal sol' = head n t_hat
       /\ length (dual sol') = length (dual sol)
       /\ (forall j, (j < length (L ++ U))%nat ->
             dual sol' !! ((L ++ U) !!! j) = Some (t_hat !!! (n + j)%nat))
       /\ (forall i, i ∉ L ++ U -> dual sol' !! i = dual sol !! i).
Proof.
  intros Hlen Hinfo HN Hsmall Hfuel n L U t_hat.
  split; [apply active_counts_spec|]. split; [apply active_indices_spec|].
  exists (polish_update pbm sol t_hat).
  assert (polish_t_hat fuel pbm sol prm = Returns t_hat) as Ht.
  { unfold polish_t_hat. rewrite active_counts_spec, active_indices_spec.
    change 0%Z with (counter 0).
    rewrite (refine_exhausts _ _ _ _ N HN Hsmall N 0%nat) by lia. reflexivity. }
  split.
  { unfold polishQP. rewrite Hinfo, Ht. reflexivity. }
  unfold polish_update. rewrite active_counts_spec, active_indices_spec.
  fold L U n. cbn [code primal dual].
  pose proof (active_sets_NoDup pbm (dual sol)) as Hnd. fold L U in Hnd.
  assert (forall j, (j < length (L ++ U))%nat -> ((L ++ U) !!! j < length (dual sol))%nat) as Hrange.
  { intros j Hj. rewrite Hlen.
    assert ((L ++ U) !!! j ∈ L ++ U) as Hin
      by (apply list_elem_of_lookup_total_2; exact Hj).
    apply elem_of_app in Hin as [Hin|Hin].
    - apply active_L_bound in Hin. tauto.
    - apply active_U_bound in Hin. tauto. }
  rewrite length_app in Hrange.
  repeat split.
  - rewrite !write_duals_length. reflexivity.
  - intros j Hj. rewrite length_app in Hj.
    destruct (Nat.lt_ge_cases j (length L)) as [HjL | HjU].
    + rewrite write_duals_frame.
      * change j with (0 + j)%nat at 1.
        apply write_duals_hit; auto using NoDup_seq.
        -- intros k Hk. apply elem_of_seq in Hk. rewrite length_app. lia.
        -- intros k Hk. apply elem_of_seq in Hk. apply Hrange. lia.
        -- apply elem_of_seq. lia.
      * intros k Hk Heq. apply elem_of_seq in Hk.
        apply lookup_total_inj in Heq; auto; rewrite ?length_app; lia.
    + replace j with (length L + (j - length L))%nat at 1 by lia.
      replace (n + j)%nat with (n + length L + (j - length L))%nat by lia.
      apply write_duals_hit; auto using NoDup_seq.
      * intros k Hk. apply elem_of_seq in Hk. rewrite length_app. lia.
      * intros k Hk. apply elem_of_seq in Hk. rewrite write_duals_length.
        apply Hrange. lia.
      * apply elem_of_seq. lia.
  - intros i Hi.
    rewrite !write_duals_frame; [reflexivity| |].
    + intros k Hk Heq. apply elem_of_seq in Hk. apply Hi. rewrite <- Heq.
      apply list_elem_of_lookup_total_2. rewrite length_app. lia.
    + intros k Hk Heq. apply elem_of_seq in Hk. apply Hi. rewrite <- Heq.
      apply list_elem_of_lookup_total_2. rewrite length_app. lia.
Qed.
End PolishClaims.

Section PolishInstances.
Import Examples ReferenceLDLT.
Local Open Scope float_scope.

Lemma polish_failure_keeps_vectors_witness :
  info (polish_factor flat_cost (mkSolution Optimal [0] [0]) (with_delta 0 default_params)) = 1%Z
  /\ polishQP 10 flat_cost (mkSolution Optimal [0] [0]) (with_delta 0 default_params)
     = Returns (mkSolution PolishFailed [0] [0]).
Proof.
  split; [reflexivity|].
  apply (polish_failure_keeps_vectors 10 flat_cost (mkSolution Optimal [0] [0])
           (with_delta 0 default_params)).
  intros H. discriminate H.
Defined.

Lemma polish_iter_beyond_counter_range_witness :
  polish_iter (with_polish_iter (2 ^ 32) default_params) = (2 ^ 32)%Z
  /\ polishQP 1000 scalar_box (mkSolution Optimal [1] [-2])
       (with_polish_iter (2 ^ 32) default_params)
     = OutOfFuel.
Proof.
  split; [reflexivity|].
  apply (polish_iter_beyond_counter_range 1000 scalar_box (mkSolution Optimal [1] [-2])
           (with_polish_iter (2 ^ 32) default_params)).
  - reflexivity.
  - apply Z.leb_le. reflexivity.
Defined.

Lemma polish_updates_active_duals_witness :
  active_indices scalar_box (mkSolution Optimal [1] [-2]) = [0%nat]
  /\ exists sol',
       polishQP 10 scalar_box (mkSolution Optimal [1] [-2]) default_params = Returns sol'
       /\ code sol' = Optimal.
Proof.
  assert (info (polish_factor scalar_box (mkSolution Optimal [1] [-2]) default_params) = 0%Z)
    as Hinfo by reflexivity.
  destruct (polish_updates_active_duals 10 5 scalar_box (mkSolution Optimal [1] [-2])
              default_params eq_refl Hinfo eq_refl eq_refl)
    as (_ & Hidx & sol' & Hret & Hcode & _).
  - lia.
  - split; [exact Hidx|]. exists sol'. split; [exact Hret | exact Hcode].
Defined.
End PolishInstances.

(** ** Fuel only bounds the run *)

Section Fuel.
Context {backend : LDLT}.

Lemma refine_fuel_mono (F : Factor) (H : Matrix) (h : Vec) (bound : Z) :
  forall fuel fuel' i t_hat,
  (fuel <= fuel')%nat ->
  refine fuel F H h bound i t_hat <> OutOfFuel ->
  refine fuel' F H h bound i t_hat = refine fuel F H h bound i t_hat.
Proof.
  induction fuel as [|fuel IH]; intros fuel' i t_hat Hle Hret; [contradiction|].
  destruct fuel' as [|fuel']; [lia|]. cbn [refine] in *.
  destruct (i =? bound)%Z; [reflexivity|]. apply IH; [lia | exact Hret].
Qed.

Lemma polishQP_fuel_mono (pbm : QuadraticProgram) (sol : Solution) (prm : SolverParams) :
  forall fuel fuel',
  (fuel <= fuel')%nat ->
  polishQP fuel pbm sol prm <> OutOfFuel ->
  polishQP fuel' pbm sol prm = polishQP fuel pbm sol prm.
Proof.
  intros fuel fuel' Hle. unfold polishQP, polish_t_hat.
  destruct (negb _); [reflexivity|].
  destruct (active_counts pbm sol) as [nl nu]. intros Hret.
  rewrite (refine_fuel_mono _ _ _ _ fuel fuel'); [reflexivity | exact Hle |].
  intros Hout. apply Hret. rewrite Hout. reflexivity.
Qed.

Lemma loop_body_fuel_mono (F : Factor) (pbm : QuadraticProgram) (prm : SolverParams)
    (i : Z) (st : Iterates) :
  forall fuel fuel',
  (fuel <= fuel')%nat ->
  loop_body fuel F pbm prm i st <> OutOfFuel ->
  loop_body fuel' F pbm prm i st = loop_body fuel F pbm prm i st.
Proof.
  intros fuel fuel' Hle. unfold loop_body, stopping_check. cbn zeta.
  destruct (stop_check_due prm i) as [[|]|]; try reflexivity.
  destruct (optimal_test pbm prm st); [|reflexivity].
  destruct (polish prm); [|reflexivity]. intros Hret.
  rewrite (polishQP_fuel_mono _ _ _ fuel fuel'); [reflexivity | exact Hle |].
  intros Hout. apply Hret. rewrite Hout. reflexivity.
Qed.

Lemma admm_loop_fuel_mono (F : Factor) (pbm : QuadraticProgram) (prm : SolverParams) :
  forall fuel fuel' i iters st,
  (fuel <= fuel')%nat ->
  admm_loop fuel F pbm prm i iters st <> OutOfFuel ->
  admm_loop fuel' F pbm prm i iters st = admm_loop fuel F pbm prm i iters st.
Proof.
  induction fuel as [|fuel IH]; intros fuel' i iters st Hle Hret; [contradiction|].
  destruct fuel' as [|fuel']; [lia|]. cbn [admm_loop] in *.
  destruct (i =? max_iter prm)%Z; [reflexivity|].
  assert (loop_body fuel F pbm prm i st <> OutOfFuel) as Hbody.
  { intros Hout. rewrite Hout in Hret. contradiction. }
  rewrite (loop_body_fuel_mono _ _ _ _ _ fuel fuel') by (lia || exact Hbody).
  destruct (loop_body fuel F pbm prm i st) as [[sol|nxt]| |]; try reflexivity.
  apply IH; [lia | exact Hret].
Qed.

(** The fuel of the model only bounds a run: once [solveQP] has returned,
    or has run into an operation without a result, more fuel changes
    nothing. *)
Lemma solveQP_fuel_mono (fuel fuel' : nat) (pbm : QuadraticProgram)
    (prm : SolverParams) (hotstart : option Solution) :
  (fuel <= fuel')%nat ->
  solveQP_report fuel pbm prm hotstart <> OutOfFuel ->
  solveQP_report fuel' pbm prm hotstart = solveQP_report fuel pbm prm hotstart.
Proof.
  intros Hle. unfold solveQP_report.
  destruct (feasible_set_empty pbm) as [[|]|]; try reflexivity. cbn zeta.
  destruct (negb _); [reflexivity|]. apply admm_loop_fuel_mono, Hle.
Qed.

(** When the factorization of the KKT matrix reports [info <> 0],
    [solveQP] returns [Unknown] with empty vectors, without entering the
    loop. *)
Theorem kkt_factorization_failure (fuel : nat) (pbm : QuadraticProgram)
    (prm : SolverParams) (hotstart : option Solution) :
  feasible_set_empty pbm = Some false ->
  info (factorize (kkt_matrix pbm prm)) <> 0%Z ->
  solveQP_report fuel pbm prm hotstart = Returns (mkReport (mkSolution Unknown [] []) 1 0).
Proof.
  intros Hpre Hinfo. unfold solveQP_report. rewrite Hpre. cbn zeta.
  destruct (Z.eqb_spec (info (factorize (kkt_matrix pbm prm))) 0); [contradiction|reflexivity].
Qed.
End Fuel.

(** ** The scenarios of the specification, run on the reference backend *)

Section Scenarios.
Import Examples ReferenceLDLT.
Local Open Scope float_scope.

(** Scalar box: the lower bound is active, [x = 1], [y = -2]. *)
Example scenario_scalar_box :
  solveQP_report 100 scalar_box default_params None
  = Returns (mkReport (mkSolution Optimal [1] [-2]) 1 80).
Proof. vm_compute. reflexivity. Qed.

(** Scalar unconstrained: [x = 2], [y = 0]. *)
Example scenario_scalar_free :
  solveQP_report 100 scalar_free default_params None
  = Returns (mkReport (mkSolution Optimal [2] [0]) 1 20).
Proof. vm_compute. reflexivity. Qed.

(** Unbounded below: [min -x1  s.t.  0 <= x2]. *)
Example scenario_unbounded :
  solveQP 100 (mkQP (mkMatrix 2 2 [[0; 0]; [0; 0]]) [-1; 0] (mkMatrix 1 2 [[0; 1]])
                 [0] [infinity]) default_params None
  = Returns (mkSolution DualInfeasible [] []).
Proof. vm_compute. reflexivity. Qed.

(** A singular KKT matrix: zero cost, zero constraint row and [sigma = 0]. *)
Lemma kkt_factorization_failure_witness :
  solveQP_report 100 (mkQP (scalar 0) [0] (scalar 0) [-1] [1])
    (mkParams 1 0x1p-3 0 0x1p-10 0x1p-10 0x1p-13 0x1p-13 100 10 true 5 0x1p-20) None
  = Returns (mkReport (mkSolution Unknown [] []) 1 0).
Proof.
  apply (kkt_factorization_failure 100 (mkQP (scalar 0) [0] (scalar 0) [-1] [1])
           (mkParams 1 0x1p-3 0 0x1p-10 0x1p-10 0x1p-13 0x1p-13 100 10 true 5 0x1p-20) None).
  - reflexivity.
  - intros H. discriminate H.
Defined.
End Scenarios.

(** ** From one pass of the loop to the whole call *)

Section FirstStop.
Context {backend : LDLT}.
Local Open Scope Z_scope.

Lemma admm_loop_reaches (F : Factor) (pbm : QuadraticProgram) (prm : SolverParams)
    (st0 : Iterates) (k : nat) :
  stop_check_iter prm <> 0 ->
  never_stops F pbm prm st0 (Some k) ->
  (forall j, (j < k)%nat -> counter j <> max_iter prm) ->
  forall fuel,
    admm_loop (k + fuel) F pbm prm (counter 0) 0 st0
    = admm_loop fuel F pbm prm (counter k) k (committed F pbm prm st0 k).
Proof.
  intros HK. induction k as [|k IH]; intros Hno Hcap fuel; [reflexivity|].
  replace (S k + fuel)%nat with (k + S fuel)%nat by lia.
  rewrite IH;
    [ | intros j Hj; apply Hno; cbn; lia | intros j Hj; apply Hcap; lia ].
  apply admm_loop_step; [exact HK | apply Hcap; lia | apply Hno; cbn; lia].
Qed.

(** When no stopping criterion is met before pass [k], the cap is not hit
    up to pass [k], and the body of pass [k] returns a solution, [solveQP]
    returns that solution, having entered the loop body [k + 1] times. *)
Theorem solveQP_returns_at_first_stop (fuel k : nat) (pbm : QuadraticProgram)
    (prm : SolverParams) (hotstart : option Solution) (sol : Solution) :
  feasible_set_empty pbm = Some false ->
  info (factorize (kkt_matrix pbm prm)) = 0 ->
  stop_check_iter prm <> 0 ->
  never_stops (factorize (kkt_matrix pbm prm)) pbm prm (init_iterates pbm hotstart) (Some k) ->
  (forall j, (j <= k)%nat -> counter j <> max_iter prm) ->
  loop_body fuel (factorize (kkt_matrix pbm prm)) pbm prm (counter k)
    (committed (factorize (kkt_matrix pbm prm)) pbm prm (init_iterates pbm hotstart) k)
  = Returns (inl sol) ->
  solveQP_report (k + S fuel) pbm prm hotstart = Returns (mkReport sol 1 (S k)).
Proof.
  intros Hpre Hinfo HK Hno Hcap Hbody.
  rewrite solveQP_report_enters_loop by assumption.
  change 0 with (counter 0) at 1.
  rewrite admm_loop_reaches; auto.
  - cbn [admm_loop].
    destruct (Z.eqb_spec (counter k) (max_iter prm)) as [Heq|_].
    + exfalso. apply (Hcap k); [lia | exact Heq].
    + rewrite Hbody. reflexivity.
  - intros j Hj. apply Hcap. lia.
Qed.
End FirstStop.

Section FirstStopInstance.
Import Examples ReferenceLDLT.
Local Open Scope float_scope.

Lemma solveQP_returns_at_first_stop_witness :
  solveQP_report 11 near_origin check_every_pass None
  = Returns (mkReport (mkSolution Optimal [-0x1p-12] [0]) 1 1).
Proof.
  apply (solveQP_returns_at_first_stop 10 0 near_origin check_every_pass None
           (mkSolution Optimal [-0x1p-12] [0])).
  - reflexivity.
  - reflexivity.
  - discriminate.
  - intros j Hj. lia.
  - intros j Hj. assert (j = 0%nat) as -> by lia. discriminate.
  - reflexivity.
Defined.
End FirstStopInstance.

(** ** The ADMM iteration: the box and the sizes *)

Section IterationFacts.
Context {backend : LDLT}.
Local Open Scope float_scope.

Lemma ltb_irrefl (v : float) : (v <? v) = false.
Proof.
  rewrite FloatAxioms.ltb_spec. unfold SFltb.
  destruct (Prim2SF v) as [s|s| |s m e]; try destruct s; cbn;
    rewrite ?Z.compare_refl, ?Pos.compare_cont_refl; reflexivity.
Qed.

(** [cwiseMax(lo).cwiseMin(hi)] on one coefficient. *)
Lemma clip_within (v lo hi : float) :
  (hi <? std_min (std_max v lo) hi) = false
  /\ ((hi <? lo) = false -> (std_min (std_max v lo) hi <? lo) = false).
Proof.
  unfold std_min, std_max.
  destruct (v <? lo) eqn:Evl.
  - destruct (hi <? lo) eqn:Ehl.
    + split; [apply ltb_irrefl | discriminate].
    + split; [exact Ehl | intros _; apply ltb_irrefl].
  - destruct (hi <? v) eqn:Ehv.
    + split; [apply ltb_irrefl | auto].
    + split; [exact Ehv | intros _; exact Evl].
Qed.

(** The projection step keeps [z] in the box: no coefficient of [z_next] is
    above its upper bound, and none is below its lower bound unless the
    bounds of that constraint are crossed. *)
Theorem z_next_within_bounds (F : Factor) (pbm : QuadraticProgram) (prm : SolverParams)
    (st : Iterates) (i : nat) (zi li ui : float) :
  cur_z (admm_update F pbm prm st) !! i = Some zi ->
  l pbm !! i = Some li ->
  u pbm !! i = Some ui ->
  (ui <? zi) = false /\ ((ui <? li) = false -> (zi <? li) = false).
Proof.
  unfold admm_update. cbn [cur_z]. unfold cwiseMin, cwiseMax.
  rewrite !lookup_zip_with. intros Hz Hl Hu. rewrite Hl, Hu in Hz.
  destruct (_ !! i) as [w|] in Hz; [|discriminate]. cbn in Hz.
  injection Hz as <-. apply clip_within.
Qed.

Lemma admm_update_dims (H : Matrix) (pbm : QuadraticProgram) (prm : SolverParams)
    (st : Iterates) :
  solve_keeps_size ->
  rows H = (cols (A pbm) + rows (A pbm))%nat ->
  cols H = (cols (A pbm) + rows (A pbm))%nat ->
  problem_dims pbm ->
  iterates_dims pbm st ->
  iterates_dims pbm (admm_update (factorize H) pbm prm st).
Proof.
  intros Hsolve Hrows Hcols (HA & Hq & Hl & Hu) (Hx & Hz & Hy).
  unfold iterates_dims, admm_update. cbn [cur_x cur_z cur_y].
  assert (length (solve (factorize H)
                    (vsub (vscale (sigma prm) (cur_x st)) (q pbm)
                       ++ vsub (cur_z st) (vdiv (cur_y st) (rho prm))))
          = (cols (A pbm) + rows (A pbm))%nat) as Hp.
  { rewrite Hsolve; [exact Hcols | congruence |].
    unfold vsub, vscale, vdiv.
    rewrite length_app, !length_zip_with, !length_map. lia. }
  unfold vadd, vsub, vscale, vdiv, cwiseMin, cwiseMax, head, tail in *.
  repeat (rewrite ?length_zip_with, ?length_map, ?length_take, ?length_drop, ?Hp).
  repeat split; lia.
Qed.

Lemma init_iterates_dims (pbm : QuadraticProgram) (hotstart : option Solution) :
  problem_dims pbm ->
  hotstart_dims pbm hotstart ->
  iterates_dims pbm (init_iterates pbm hotstart).
Proof.
  intros (HA & Hq & Hl & Hu) Hhs. unfold iterates_dims, init_iterates.
  destruct hotstart as [hs|]; cbn [cur_x cur_z cur_y].
  - destruct Hhs as [Hp Hd]. unfold mul_vec. rewrite length_map. auto.
  - unfold setZero. rewrite !length_replicate. auto.
Qed.

(** The iterates keep their sizes through every commit. *)
Theorem committed_dims (pbm : QuadraticProgram) (prm : SolverParams)
    (hotstart : option Solution) (k : nat) :
  solve_keeps_size ->
  problem_dims pbm ->
  hotstart_dims pbm hotstart ->
  iterates_dims pbm
    (committed (factorize (kkt_matrix pbm prm)) pbm prm (init_iterates pbm hotstart) k).
Proof.
  intros Hsolve Hpbm Hhs. induction k as [|k IH].
  - apply init_iterates_dims; assumption.
  - cbn. apply admm_update_dims; auto.
Qed.
End IterationFacts.

(** ** What each exit code of solveQP means *)

Section Verdicts.
Context {backend : LDLT}.
Local Open Scope Z_scope.

Lemma stopping_check_none_inv (F : Factor) (pbm : QuadraticProgram) (prm : SolverParams)
    (fuel : nat) (st : Iterates) :
  stopping_check fuel pbm prm st (admm_update F pbm prm st) = None ->
  criterion_met F pbm prm st = false.
Proof.
  unfold criterion_met, stopping_check. cbn zeta.
  destruct (optimal_test pbm prm st); [discriminate|].
  destruct (primal_infeasible_test _ _ _ _); [discriminate|].
  destruct (dual_infeasible_test _ _ _ _); [discriminate|]. reflexivity.
Qed.

Lemma quiet_passes_extend (F : Factor) (pbm : QuadraticProgram) (prm : SolverParams)
    (st0 : Iterates) (k j : nat) (due : bool) :
  counter k <> max_iter prm ->
  stop_check_due prm (counter k) = Some due ->
  (due = true -> criterion_met F pbm prm (committed F pbm prm st0 k) = false) ->
  quiet_passes F pbm prm st0 (S k) j ->
  quiet_passes F pbm prm st0 k j.
Proof.
  intros Hcap Hdue Hcrit Hq p Hp.
  destruct (Nat.eq_dec p k) as [->|Hne].
  - split; [exact Hcap|]. exists due. auto.
  - apply Hq. lia.
Qed.

(** A run of the loop that returns has gone quietly through the passes
    before some pass [j], at which either the cap was hit or the stopping
    check returned. *)
Lemma admm_loop_result (F : Factor) (pbm : QuadraticProgram) (prm : SolverParams)
    (st0 : Iterates) :
  forall fuel k r,
  admm_loop fuel F pbm prm (counter k) k (committed F pbm prm st0 k) = Returns r ->
  kkt_factorizations r = 1%nat
  /\ exists j, (k <= j)%nat
       /\ quiet_passes F pbm prm st0 k j
       /\ ((counter j = max_iter prm
            /\ iterations r = j
            /\ solution r = mkSolution MaxIterations
                              (cur_x (committed F pbm prm st0 j))
                              (cur_y (committed F pbm prm st0 j)))
           \/ (counter j <> max_iter prm
               /\ iterations r = S j
               /\ stop_check_due prm (counter j) = Some true
               /\ exists f,
                    stopping_check f pbm prm (committed F pbm prm st0 j)
                      (committed F pbm prm st0 (S j))
                    = Some (Returns (solution r)))).
Proof.
  induction fuel as [|fuel IH]; intros k r Hret; [discriminate|].
  cbn [admm_loop] in Hret.
  destruct (Z.eqb_spec (counter k) (max_iter prm)) as [Hcap|Hcap].
  - injection Hret as <-. split; [reflexivity|]. exists k.
    split; [lia|]. split; [intros p Hp; lia|]. left. auto.
  - unfold loop_body in Hret. cbn zeta in Hret.
    destruct (stop_check_due prm (counter k)) as [[|]|] eqn:Hdue; [| |discriminate].
    + destruct (stopping_check fuel pbm prm (committed F pbm prm st0 k)
                  (admm_update F pbm prm (committed F pbm prm st0 k))) as [res|] eqn:Hstop.
      * destruct res as [sol| |]; try discriminate. cbn in Hret.
        injection Hret as <-. split; [reflexivity|]. exists k.
        split; [lia|]. split; [intros p Hp; lia|]. right.
        repeat split; auto. exists fuel. exact Hstop.
      * rewrite counter_incr in Hret.
        change (admm_update F pbm prm (committed F pbm prm st0 k))
          with (committed F pbm prm st0 (S k)) in Hret.
        destruct (IH (S k) r Hret) as (Hfac & j & Hj & Hq & Hend).
        split; [exact Hfac|]. exists j. split; [lia|]. split; [|exact Hend].
        apply (quiet_passes_extend F pbm prm st0 k j true); auto.
        intros _. apply (stopping_check_none_inv F pbm prm fuel), Hstop.
    + rewrite counter_incr in Hret.
      change (admm_update F pbm prm (committed F pbm prm st0 k))
        with (committed F pbm prm st0 (S k)) in Hret.
      destruct (IH (S k) r Hret) as (Hfac & j & Hj & Hq & Hend).
      split; [exact Hfac|]. exists j. split; [lia|]. split; [|exact Hend].
      apply (quiet_passes_extend F pbm prm st0 k j false); auto. discriminate.
Qed.

Lemma polishQP_code (fuel : nat) (pbm : QuadraticProgram) (sol sol' : Solution)
    (prm : SolverParams) :
  polishQP fuel pbm sol prm = Returns sol' ->
  code sol' = code sol \/ code sol' = PolishFailed.
Proof.
  unfold polishQP. destruct (negb _).
  - intros [= <-]. right. reflexivity.
  - destruct (polish_t_hat fuel pbm sol prm) as [t| |]; try discriminate.
    cbn. intros [= <-]. left. unfold polish_update.
    destruct (active_counts pbm sol). reflexivity.
Qed.

(** What the three outcomes of the stopping check look like. *)
Lemma stopping_check_cases (fuel : nat) (pbm : QuadraticProgram) (prm : SolverParams)
    (st nxt : Iterates) (sol : Solution) :
  stopping_check fuel pbm prm st nxt = Some (Returns sol) ->
  (optimal_test pbm prm st = true
   /\ (code sol = Optimal \/ code sol = PolishFailed)
   /\ (polish prm = false -> sol = mkSolution Optimal (cur_x st) (cur_y st))
   /\ (polish prm = true ->
       polishQP fuel pbm (mkSolution Optimal (cur_x st) (cur_y st)) prm = Returns sol))
  \/ (optimal_test pbm prm st = false
      /\ primal_infeasible_test pbm prm st nxt = true
      /\ sol = mkSolution PrimalInfeasible [] [])
  \/ (optimal_test pbm prm st = false
      /\ primal_infeasible_test pbm prm st nxt = false
      /\ dual_infeasible_test pbm prm st nxt = true
      /\ sol = mkSolution DualInfeasible [] []).
Proof.
  unfold stopping_check.
  destruct (optimal_test pbm prm st).
  - intros [= Hret]. left. split; [reflexivity|].
    destruct (polish prm).
    + apply polishQP_code in Hret as Hcode. cbn in Hcode.
      repeat split; auto. discriminate.
    + injection Hret as <-. repeat split; auto. discriminate.
  - destruct (primal_infeasible_test pbm prm st nxt).
    + intros [= <-]. right. left. auto.
    + destruct (dual_infeasible_test pbm prm st nxt); [|discriminate].
      intros [= <-]. right. right. auto.
Qed.
End Verdicts.

Section VerdictTheorems.
Context {backend : LDLT}.
Local Open Scope Z_scope.

Lemma solveQP_report_cases (fuel : nat) (pbm : QuadraticProgram) (prm : SolverParams)
    (hotstart : option Solution) (r : Report) :
  solveQP_report fuel pbm prm hotstart = Returns r ->
  (feasible_set_empty pbm = Some true
   /\ r = mkReport (mkSolution PrimalInfeasible [] []) 0 0)
  \/ (feasible_set_empty pbm = Some false
      /\ info (factorize (kkt_matrix pbm prm)) <> 0
      /\ r = mkReport (mkSolution Unknown [] []) 1 0)
  \/ (feasible_set_empty pbm = Some false
      /\ info (factorize (kkt_matrix pbm prm)) = 0
      /\ admm_loop fuel (factorize (kkt_matrix pbm prm)) pbm prm (counter 0) 0
           (committed (factorize (kkt_matrix pbm prm)) pbm prm (init_iterates pbm hotstart) 0)
         = Returns r).
Proof.
  unfold solveQP_report.
  destruct (feasible_set_empty pbm) as [[|]|]; [| |discriminate].
  - intros [= <-]. left. auto.
  - cbn zeta. destruct (Z.eqb_spec (info (factorize (kkt_matrix pbm prm))) 0) as [H0|H0]; cbn.
    + intros Hret. right. right. auto.
    + intros [= <-]. right. left. auto.
Qed.

(** [Optimal] and [PolishFailed] are returned only at a pass where the
    check is due and the committed iterates pass the optimality test, no
    criterion having been met at an earlier check; with [polish] off the
    vectors returned are those iterates and the code is never
    [PolishFailed]. *)
Theorem optimal_only_after_test (fuel : nat) (pbm : QuadraticProgram) (prm : SolverParams)
    (hotstart : option Solution) (r : Report) :
  solveQP_report fuel pbm prm hotstart = Returns r ->
  code (solution r) = Optimal \/ code (solution r) = PolishFailed ->
  exists j,
    iterations r = S j
    /\ quiet_passes (factorize (kkt_matrix pbm prm)) pbm prm (init_iterates pbm hotstart) 0 j
    /\ stop_check_due prm (counter j) = Some true
    /\ optimal_test pbm prm
         (committed (factorize (kkt_matrix pbm prm)) pbm prm (init_iterates pbm hotstart) j)
       = true
    /\ (polish prm = false ->
        solution r
        = mkSolution Optimal
            (cur_x (committed (factorize (kkt_matrix pbm prm)) pbm prm
                      (init_iterates pbm hotstart) j))
            (cur_y (committed (factorize (kkt_matrix pbm prm)) pbm prm
                      (init_iterates pbm hotstart) j)))
    /\ (code (solution r) = PolishFailed -> polish prm = true).
Proof.
  intros Hret Hcode.
  destruct (solveQP_report_cases _ _ _ _ _ Hret) as [(_ & ->) | [(_ & _ & ->) | (_ & _ & Hloop)]].
  - destruct Hcode; discriminate.
  - destruct Hcode; discriminate.
  - apply admm_loop_result in Hloop as (_ & j & _ & Hq & [(_ & _ & Hsol) | (_ & Hit & Hdue & f & Hstop)]).
    + rewrite Hsol in Hcode. destruct Hcode; discriminate.
    + exists j.
      apply stopping_check_cases in Hstop
        as [(Hopt & _ & Hoff & Hon) | [(_ & _ & Hsol) | (_ & _ & _ & Hsol)]].
      * split; [exact Hit|]. split; [exact Hq|]. split; [exact Hdue|].
        split; [exact Hopt|]. split; [exact Hoff|].
        intros Hpf. destruct (polish prm); [reflexivity|].
        rewrite (Hoff eq_refl) in Hpf. discriminate.
      * rewrite Hsol in Hcode. destruct Hcode; discriminate.
      * rewrite Hsol in Hcode. destruct Hcode; discriminate.
Qed.

(** The three codes that come with empty vectors: [PrimalInfeasible] is
    returned only by the pre-flight check or at a due check where the
    optimality test fails and the primal certificate test holds,
    [DualInfeasible] only at a due check where both fail and the dual
    certificate test holds, [Unknown] only when the KKT factorization
    reports [info <> 0], before any pass. *)
Theorem empty_vector_codes (fuel : nat) (pbm : QuadraticProgram) (prm : SolverParams)
    (hotstart : option Solution) (r : Report) :
  solveQP_report fuel pbm prm hotstart = Returns r ->
  (code (solution r) = PrimalInfeasible ->
     solution r = mkSolution PrimalInfeasible [] []
     /\ ((feasible_set_empty pbm = Some true
          /\ kkt_factorizations r = 0%nat /\ iterations r = 0%nat)
         \/ (feasible_set_empty pbm = Some false
             /\ exists j,
                  iterations r = S j
                  /\ stop_check_due prm (counter j) = Some true
                  /\ optimal_test pbm prm
                       (committed (factorize (kkt_matrix pbm prm)) pbm prm
                          (init_iterates pbm hotstart) j) = false
                  /\ primal_infeasible_test pbm prm
                       (committed (factorize (kkt_matrix pbm prm)) pbm prm
                          (init_iterates pbm hotstart) j)
                       (committed (factorize (kkt_matrix pbm prm)) pbm prm
                          (init_iterates pbm hotstart) (S j)) = true)))
  /\ (code (solution r) = DualInfeasible ->
      solution r = mkSolution DualInfeasible [] []
      /\ exists j,
           iterations r = S j
           /\ stop_check_due prm (counter j) = Some true
           /\ optimal_test pbm prm
                (committed (factorize (kkt_matrix pbm prm)) pbm prm
                   (init_iterates pbm hotstart) j) = false
           /\ primal_infeasible_test pbm prm
                (committed (factorize (kkt_matrix pbm prm)) pbm prm
                   (init_iterates pbm hotstart) j)
                (committed (factorize (kkt_matrix pbm prm)) pbm prm
                   (init_iterates pbm hotstart) (S j)) = false
           /\ dual_infeasible_test pbm prm
                (committed (factorize (kkt_matrix pbm prm)) pbm prm
                   (init_iterates pbm hotstart) j)
                (committed (factorize (kkt_matrix pbm prm)) pbm prm
                   (init_iterates pbm hotstart) (S j)) = true)
  /\ (code (solution r) = Unknown ->
      solution r = mkSolution Unknown [] []
      /\ iterations r = 0%nat
      /\ info (factorize (kkt_matrix pbm prm)) <> 0).
Proof.
  intros Hret.
  destruct (solveQP_report_cases _ _ _ _ _ Hret)
    as [(Hpre & ->) | [(Hpre & Hinfo & ->) | (Hpre & Hinfo & Hloop)]]; cbn.
  - split; [intros _; split; [reflexivity | left; auto]|].
    split; intros Hc; discriminate Hc.
  - split; [intros Hc; discriminate Hc|]. split; [intros Hc; discriminate Hc|].
    intros _. auto.
  - apply admm_loop_result in Hloop
      as (_ & j & _ & Hq & [(_ & _ & Hsol) | (_ & Hit & Hdue & f & Hstop)]).
    + rewrite Hsol. cbn. split; [|split]; intros Hc; discriminate Hc.
    + apply stopping_check_cases in Hstop
        as [(Hopt & Hcode & _) | [(Hopt & Hpi & Hsol) | (Hopt & Hpi & Hdi & Hsol)]].
      * split; [|split]; intros Hc; rewrite Hc in Hcode; destruct Hcode; discriminate.
      * rewrite Hsol. cbn. split; [|split; intros Hc; discriminate Hc].
        intros _. split; [reflexivity|]. right. split; [exact Hpre|].
        exists j. repeat split; assumption.
      * rewrite Hsol. cbn. split; [intros Hc; discriminate Hc|].
        split; [|intros Hc; discriminate Hc].
        intros _. split; [reflexivity|]. exists j. repeat split; assumption.
Qed.

(** [MaxIterations] is returned only when the loop body has been entered
    exactly [max_iter] times without any criterion met at a check; the
    vectors returned are the iterates committed last. *)
Theorem max_iterations_only_at_cap (fuel : nat) (pbm : QuadraticProgram)
    (prm : SolverParams) (hotstart : option Solution) (r : Report) :
  solveQP_report fuel pbm prm hotstart = Returns r ->
  code (solution r) = MaxIterations ->
  Z.of_nat (iterations r) = max_iter prm
  /\ max_iter prm < UINT_MODULUS
  /\ quiet_passes (factorize (kkt_matrix pbm prm)) pbm prm (init_iterates pbm hotstart)
       0 (iterations r)
  /\ solution r
     = mkSolution MaxIterations
         (cur_x (committed (factorize (kkt_matrix pbm prm)) pbm prm
                   (init_iterates pbm hotstart) (iterations r)))
         (cur_y (committed (factorize (kkt_matrix pbm prm)) pbm prm
                   (init_iterates pbm hotstart) (iterations r))).
Proof.
  intros Hret Hcode.
  destruct (solveQP_report_cases _ _ _ _ _ Hret) as [(_ & ->) | [(_ & _ & ->) | (_ & _ & Hloop)]];
    try discriminate.
  apply admm_loop_result in Hloop as (_ & j & _ & Hq & [(Hcap & Hit & Hsol) | (_ & _ & _ & f & Hstop)]).
  - rewrite Hit. pose proof (counter_range j) as Hrange.
    assert (Z.of_nat j = max_iter prm) as Hj.
    { destruct (Z_lt_le_dec (Z.of_nat j) UINT_MODULUS) as [Hlt|Hge].
      - rewrite <- Hcap. symmetry. apply counter_small. exact Hlt.
      - exfalso.
        destruct (Hq (Z.to_nat (max_iter prm))) as [Hne _]; [lia|].
        apply Hne. rewrite counter_small; lia. }
    split; [exact Hj|]. split; [lia|]. split; [exact Hq | exact Hsol].
  - apply stopping_check_cases in Hstop
      as [(_ & Hc & _) | [(_ & _ & Hsol) | (_ & _ & _ & Hsol)]].
    + rewrite Hcode in Hc. destruct Hc; discriminate.
    + rewrite Hsol in Hcode. discriminate.
    + rewrite Hsol in Hcode. discriminate.
Qed.
End VerdictTheorems.

(** ** polishQP: the reduced system and the sizes *)

Section PolishStructure.
Context {backend : LDLT}.
Local Open Scope float_scope.

Lemma active_indices_split (pbm : QuadraticProgram) (sol : Solution) :
  length (active_indices pbm sol)
  = (fst (active_counts pbm sol) + snd (active_counts pbm sol))%nat
  /\ take (fst (active_counts pbm sol)) (active_indices pbm sol) = active_L pbm (dual sol)
  /\ drop (length (active_indices pbm sol) - snd (active_counts pbm sol))
       (active_indices pbm sol) = active_U pbm (dual sol).
Proof.
  rewrite active_counts_spec, active_indices_spec. cbn [fst snd].
  split; [apply length_app|]. split; [apply take_app_length|].
  apply drop_app_length'. rewrite length_app. lia.
Qed.

(** [LU_idx] lists valid, distinct constraint rows; the reduced system has at
    most [n + m] unknowns; [head(nl)] and [tail(nu)] of [LU_idx] are the
    lower and the upper active set, so the right-hand side is
    [-q], then [l] on [L], then [u] on [U]. *)
Theorem active_indices_valid (pbm : QuadraticProgram) (sol : Solution) :
  NoDup (active_indices pbm sol)
  /\ (forall i, i ∈ active_indices pbm sol -> (i < rows (A pbm))%nat)
  /\ length (active_indices pbm sol)
     = (fst (active_counts pbm sol) + snd (active_counts pbm sol))%nat
  /\ (fst (active_counts pbm sol) + snd (active_counts pbm sol) <= rows (A pbm))%nat
  /\ take (fst (active_counts pbm sol)) (active_indices pbm sol) = active_L pbm (dual sol)
  /\ drop (length (active_indices pbm sol) - snd (active_counts pbm sol))
       (active_indices pbm sol) = active_U pbm (dual sol)
  /\ polish_rhs pbm (fst (active_counts pbm sol)) (snd (active_counts pbm sol))
       (active_indices pbm sol)
     = vopp (q pbm)
         ++ map (fun i => l pbm !!! i) (active_L pbm (dual sol))
         ++ map (fun i => u pbm !!! i) (active_U pbm (dual sol)).
Proof.
  rewrite active_counts_spec, active_indices_spec. cbn [fst snd].
  pose proof (active_sets_NoDup pbm (dual sol)) as Hnd.
  assert (forall i, i ∈ active_L pbm (dual sol) ++ active_U pbm (dual sol) ->
            (i < rows (A pbm))%nat) as Hrange.
  { intros i Hi. apply elem_of_app in Hi as [Hi|Hi].
    - apply active_L_bound in Hi. tauto.
    - apply active_U_bound in Hi. tauto. }
  assert (take (length (active_L pbm (dual sol)))
            (active_L pbm (dual sol) ++ active_U pbm (dual sol))
          = active_L pbm (dual sol)) as Htake by apply take_app_length.
  assert (drop (length (active_L pbm (dual sol) ++ active_U pbm (dual sol))
                - length (active_U pbm (dual sol)))
            (active_L pbm (dual sol) ++ active_U pbm (dual sol))
          = active_U pbm (dual sol)) as Hdrop.
  { apply drop_app_length'. rewrite length_app. lia. }
  split; [exact Hnd|]. split; [exact Hrange|]. split; [apply length_app|].
  split.
  - rewrite <- length_app.
    apply (Nat.le_trans _ (length (seq 0 (rows (A pbm))))).
    + apply List.NoDup_incl_length.
      * apply NoDup_ListNoDup, Hnd.
      * intros i Hi. apply in_seq. apply list_elem_of_In in Hi. apply Hrange in Hi. lia.
    + rewrite length_seq. lia.
  - split; [exact Htake|]. split; [exact Hdrop|].
    unfold polish_rhs. rewrite Htake, Hdrop. reflexivity.
Qed.

Lemma refine_step_size (Hp H : Matrix) (h t_hat : Vec) (N : nat) :
  solve_keeps_size ->
  rows Hp = N -> cols Hp = N ->
  length t_hat = N -> length h = N -> rows H = N ->
  length (refine_step (factorize Hp) H h t_hat) = N.
Proof.
  intros Hsolve Hr Hc Ht Hh HH. unfold refine_step, vadd.
  rewrite length_zip_with, Hsolve; [lia | congruence |].
  unfold vsub, selfadjoint_upper_mul.
  rewrite length_zip_with, length_map, length_seq. lia.
Qed.

Lemma refine_size (Hp H : Matrix) (h : Vec) (bound : Z) (N : nat) :
  solve_keeps_size ->
  rows Hp = N -> cols Hp = N ->
  length h = N -> rows H = N ->
  forall fuel i t_hat t_hat',
  length t_hat = N ->
  refine fuel (factorize Hp) H h bound i t_hat = Returns t_hat' ->
  length t_hat' = N.
Proof.
  intros Hsolve Hr Hc Hh HH.
  induction fuel as [|fuel IH]; intros i t_hat t_hat' Ht; [discriminate|].
  cbn [refine]. destruct (i =? bound)%Z.
  - intros [= <-]. exact Ht.
  - apply IH. apply refine_step_size; assumption.
Qed.

Lemma polish_update_sizes (fuel : nat) (pbm : QuadraticProgram) (sol : Solution)
    (prm : SolverParams) (t_hat : Vec) :
  solve_keeps_size ->
  length (q pbm) = cols (A pbm) ->
  polish_t_hat fuel pbm sol prm = Returns t_hat ->
  length (primal (polish_update pbm sol t_hat)) = cols (A pbm)
  /\ length (dual (polish_update pbm sol t_hat)) = length (dual sol).
Proof.
  intros Hsolve Hq Ht.
  unfold polish_t_hat, polish_factor in Ht. unfold polish_update.
  destruct (active_indices_split pbm sol) as (Hlen & HL & HU).
  destruct (active_counts pbm sol) as [nl nu]. cbn [fst snd] in *.
  cbn [primal dual]. rewrite !write_duals_length. split; [|reflexivity].
  apply (refine_size _ _ _ _ (cols (A pbm) + nl + nu)) in Ht.
  + unfold head. rewrite length_take. lia.
  + exact Hsolve.
  + reflexivity.
  + reflexivity.
  + unfold polish_rhs, vopp.
    rewrite !length_app, !length_map, length_take, length_drop, Hq. lia.
  + reflexivity.
  + apply length_replicate.
Qed.

(** [polishQP] keeps the sizes of the primal and of the dual. *)
Theorem polishQP_sizes (fuel : nat) (pbm : QuadraticProgram) (sol sol' : Solution)
    (prm : SolverParams) :
  solve_keeps_size ->
  length (q pbm) = cols (A pbm) ->
  length (primal sol) = cols (A pbm) ->
  polishQP fuel pbm sol prm = Returns sol' ->
  length (primal sol') = cols (A pbm) /\ length (dual sol') = length (dual sol).
Proof.
  intros Hsolve Hq Hp. unfold polishQP. destruct (negb _).
  - intros [= <-]. auto.
  - destruct (polish_t_hat fuel pbm sol prm) as [t_hat| |] eqn:Ht; try discriminate.
    cbn. intros [= <-]. apply (polish_update_sizes fuel pbm sol prm); assumption.
Qed.

Lemma polish_update_duals (pbm : QuadraticProgram) (sol : Solution) (t_hat : Vec) :
  length (dual sol) = rows (A pbm) ->
  (forall j, (j < length (active_L pbm (dual sol) ++ active_U pbm (dual sol)))%nat ->
     dual (polish_update pbm sol t_hat)
       !! ((active_L pbm (dual sol) ++ active_U pbm (dual sol)) !!! j)
     = Some (t_hat !!! (cols (A pbm) + j)%nat))
  /\ (forall i, i ∉ active_L pbm (dual sol) ++ active_U pbm (dual sol) ->
        dual (polish_update pbm sol t_hat) !! i = dual sol !! i).
Proof.
  intros Hlen. unfold polish_update. rewrite active_counts_spec, active_indices_spec.
  cbn [dual].
  set (L := active_L pbm (dual sol)). set (U := active_U pbm (dual sol)).
  set (n := cols (A pbm)).
  pose proof (active_sets_NoDup pbm (dual sol)) as Hnd. fold L U in Hnd.
  assert (forall j, (j < length L + length U)%nat ->
            ((L ++ U) !!! j < length (dual sol))%nat) as Hrange.
  { intros j Hj. rewrite Hlen.
    assert ((L ++ U) !!! j ∈ L ++ U) as Hin
      by (apply list_elem_of_lookup_total_2; rewrite length_app; exact Hj).
    apply elem_of_app in Hin as [Hin|Hin].
    - apply active_L_bound in Hin. tauto.
    - apply active_U_bound in Hin. tauto. }
  split.
  - intros j Hj. rewrite length_app in Hj.
    destruct (Nat.lt_ge_cases j (length L)) as [HjL | HjU].
    + rewrite write_duals_frame.
      * change j with (0 + j)%nat at 1.
        apply write_duals_hit; auto using NoDup_seq.
        -- intros k Hk. apply elem_of_seq in Hk. rewrite length_app. lia.
        -- intros k Hk. apply elem_of_seq in Hk. apply Hrange. lia.
        -- apply elem_of_seq. lia.
      * intros k Hk Heq. apply elem_of_seq in Hk.
        apply lookup_total_inj in Heq; auto; rewrite ?length_app; lia.
    + replace j with (length L + (j - length L))%nat at 1 by lia.
      replace (n + j)%nat with (n + length L + (j - length L))%nat by lia.
      apply write_duals_hit; auto using NoDup_seq.
      * intros k Hk. apply elem_of_seq in Hk. rewrite length_app. lia.
      * intros k Hk. apply elem_of_seq in Hk. rewrite write_duals_length.
        apply Hrange. lia.
      * apply elem_of_seq. lia.
  - intros i Hi.
    rewrite !write_duals_frame; [reflexivity| |].
    + intros k Hk Heq. apply elem_of_seq in Hk. apply Hi. rewrite <- Heq.
      apply list_elem_of_lookup_total_2. rewrite length_app. lia.
    + intros k Hk Heq. apply elem_of_seq in Hk. apply Hi. rewrite <- Heq.
      apply list_elem_of_lookup_total_2. rewrite length_app. lia.
Qed.

(** With [polish_iter = 0] no refinement step is taken and [t_hat] stays
    zero: after a successful factorization [polishQP] returns the zero
    primal and sets every dual that was negative or positive to zero. *)
Theorem polish_without_refinement (fuel : nat) (pbm : QuadraticProgram)
    (sol : Solution) (prm : SolverParams) :
  length (dual sol) = rows (A pbm) ->
  info (polish_factor pbm sol prm) = 0%Z ->
  polish_iter prm = 0%Z ->
  exists sol',
    polishQP (S fuel) pbm sol prm = Returns sol'
    /\ code sol' = code sol
    /\ primal sol' = setZero (cols (A pbm))
    /\ forall i, (i < rows (A pbm))%nat ->
         dual sol' !! i
         = Some (if (dual sol !!! i <? 0) || (0 <? dual sol !!! i)
                 then 0 else dual sol !!! i).
Proof.
  intros Hlen Hinfo Hiter.
  set (L := active_L pbm (dual sol)). set (U := active_U pbm (dual sol)).
  set (n := cols (A pbm)).
  assert (polish_t_hat (S fuel) pbm sol prm
          = Returns (setZero (n + length L + length U))) as Ht.
  { unfold polish_t_hat. rewrite active_counts_spec. cbn [refine].
    rewrite Hiter. reflexivity. }
  exists (polish_update pbm sol (setZero (n + length L + length U))).
  split; [unfold polishQP; rewrite Hinfo, Ht; reflexivity|].
  destruct (polish_update_duals pbm sol (setZero (n + length L + length U)) Hlen)
    as [Hhit Hframe]. fold L U n in Hhit, Hframe.
  split; [|split].
  - unfold polish_update. destruct (active_counts pbm sol). reflexivity.
  - unfold polish_update. destruct (active_counts pbm sol). cbn [primal].
    unfold head, setZero. rewrite <- Nat.add_assoc. apply take_replicate_add.
  - intros i Hi.
    destruct ((dual sol !!! i <? 0) || (0 <? dual sol !!! i)) eqn:Hact.
    + assert (i ∈ L ++ U) as Hin.
      { apply elem_of_app. apply orb_true_iff in Hact as [Hneg|Hpos].
        - left. apply active_L_bound. auto.
        - right. apply active_U_bound. auto. }
      apply list_elem_of_lookup in Hin as [j Hj].
      pose proof (lookup_lt_Some _ _ _ Hj) as Hjlt.
      rewrite <- (list_lookup_total_correct _ _ _ Hj).
      rewrite Hhit by exact Hjlt. f_equal.
      apply lookup_total_replicate_2. rewrite length_app in Hjlt. lia.
    + rewrite Hframe.
      * apply list_lookup_lookup_total_lt. lia.
      * intros Hin. apply orb_false_iff in Hact as [Hneg Hpos].
        apply elem_of_app in Hin as [Hin|Hin].
        -- apply active_L_bound in Hin as [_ Hin]. congruence.
        -- apply active_U_bound in Hin as [_ Hin]. congruence.
Qed.
End PolishStructure.

(** ** Sizes of what solveQP returns, and when it returns *)

Section ReturnFacts.
Context {backend : LDLT}.
Local Open Scope Z_scope.

(** The exit code tells which vectors are populated: [PrimalInfeasible],
    [DualInfeasible] and [Unknown] come with empty vectors, [Optimal],
    [PolishFailed] and [MaxIterations] with a primal of [n] and a dual of
    [m] entries. *)
Theorem solution_sizes (fuel : nat) (pbm : QuadraticProgram) (prm : SolverParams)
    (hotstart : option Solution) (sol : Solution) :
  solve_keeps_size ->
  problem_dims pbm ->
  hotstart_dims pbm hotstart ->
  solveQP fuel pbm prm hotstart = Returns sol ->
  match code sol with
  | PrimalInfeasible | DualInfeasible | Unknown => primal sol = [] /\ dual sol = []
  | Optimal | PolishFailed | MaxIterations =>
      length (primal sol) = cols (A pbm) /\ length (dual sol) = rows (A pbm)
  end.
Proof.
  intros Hsolve Hpbm Hhs. unfold solveQP.
  destruct (solveQP_report fuel pbm prm hotstart) as [r| |] eqn:Hret; try discriminate.
  cbn. intros [= <-].
  assert (forall k, iterates_dims pbm
            (committed (factorize (kkt_matrix pbm prm)) pbm prm
               (init_iterates pbm hotstart) k)) as Hdims.
  { induction k as [|k IH].
    - apply init_iterates_dims; assumption.
    - cbn. apply admm_update_dims; auto. }
  destruct (solveQP_report_cases _ _ _ _ _ Hret) as [(_ & ->) | [(_ & _ & ->) | (_ & _ & Hloop)]];
    [cbn; auto | cbn; auto |].
  apply admm_loop_result in Hloop as (_ & j & _ & _ & [(_ & _ & Hsol) | (_ & _ & _ & f & Hstop)]).
  - rewrite Hsol. cbn. destruct (Hdims j) as (Hx & _ & Hy). auto.
  - apply stopping_check_cases in Hstop
      as [(_ & Hcode & Hoff & Hon) | [(_ & _ & Hsol) | (_ & _ & _ & Hsol)]].
    + destruct (Hdims j) as (Hx & _ & Hy).
      assert (length (primal (solution r)) = cols (A pbm)
              /\ length (dual (solution r)) = rows (A pbm)) as Hlen.
      { destruct (polish prm) eqn:Hpolish.
        - specialize (Hon eq_refl).
          destruct Hpbm as (_ & Hq & _).
          revert Hon. unfold polishQP. destruct (negb _).
          + intros [= <-]. cbn. auto.
          + match goal with
            | |- context [polish_t_hat ?fu pbm ?so prm] =>
                destruct (polish_t_hat fu pbm so prm) as [t_hat| |] eqn:Ht; try discriminate
            end.
            cbn. intros [= <-].
            destruct (polish_update_sizes _ _ _ _ _ Hsolve Hq Ht) as [Hp Hd].
            cbn in Hd. split; congruence.
        - rewrite (Hoff eq_refl). cbn. auto. }
      destruct Hcode as [-> | ->]; exact Hlen.
    + rewrite Hsol. cbn. auto.
    + rewrite Hsol. cbn. auto.
Qed.

Lemma polishQP_returns (fuel M : nat) (pbm : QuadraticProgram) (sol : Solution)
    (prm : SolverParams) :
  polish_iter prm = Z.of_nat M ->
  polish_iter prm < UINT_MODULUS ->
  (M < fuel)%nat ->
  polishQP fuel pbm sol prm <> OutOfFuel.
Proof.
  intros HM Hsmall Hfuel. unfold polishQP, polish_t_hat.
  destruct (negb _); [discriminate|].
  destruct (active_counts pbm sol) as [nl nu].
  change 0 with (counter 0).
  rewrite (refine_exhausts _ _ _ _ M HM Hsmall M 0%nat) by lia. discriminate.
Qed.

Lemma loop_body_returns (fuel M : nat) (F : Factor) (pbm : QuadraticProgram)
    (prm : SolverParams) (i : Z) (st : Iterates) :
  (polish prm = true -> polish_iter prm = Z.of_nat M /\ polish_iter prm < UINT_MODULUS) ->
  (M < fuel)%nat ->
  loop_body fuel F pbm prm i st <> OutOfFuel.
Proof.
  intros Hpolish Hfuel. unfold loop_body, stopping_check. cbn zeta.
  destruct (stop_check_due prm i) as [[|]|]; try discriminate.
  destruct (optimal_test pbm prm st).
  - destruct (polish prm); [|discriminate].
    destruct (Hpolish eq_refl) as [HM Hsmall].
    pose proof (polishQP_returns fuel M pbm
                  (mkSolution Optimal (cur_x st) (cur_y st)) prm HM Hsmall Hfuel) as Hp.
    destruct (polishQP fuel pbm _ prm); [discriminate | discriminate | contradiction].
  - destruct (primal_infeasible_test _ _ _ _); [discriminate|].
    destruct (dual_infeasible_test _ _ _ _); discriminate.
Qed.

Lemma admm_loop_returns (N M : nat) (F : Factor) (pbm : QuadraticProgram)
    (prm : SolverParams) :
  max_iter prm = Z.of_nat N ->
  max_iter prm < UINT_MODULUS ->
  (polish prm = true -> polish_iter prm = Z.of_nat M /\ polish_iter prm < UINT_MODULUS) ->
  forall d k fuel iters st,
    (k + d = N)%nat -> (d + M + 1 < fuel)%nat ->
    admm_loop fuel F pbm prm (counter k) iters st <> OutOfFuel.
Proof.
  intros HN Hsmall Hpolish d. induction d as [|d IH]; intros k fuel iters st Hk Hfuel.
  - destruct fuel as [|fuel]; [lia|]. cbn [admm_loop].
    rewrite counter_small by lia.
    destruct (Z.eqb_spec (Z.of_nat k) (max_iter prm)); [discriminate | lia].
  - destruct fuel as [|fuel]; [lia|]. cbn [admm_loop].
    destruct (counter k =? max_iter prm); [discriminate|].
    pose proof (loop_body_returns fuel M F pbm prm (counter k) st Hpolish) as Hbody.
    destruct (loop_body fuel F pbm prm (counter k) st) as [[sol|nxt]| |];
      [discriminate | | discriminate | exfalso; apply Hbody; [lia | reflexivity]].
    rewrite counter_incr. apply IH; lia.
Qed.

(** With [max_iter] and, when [polish] is on, [polish_iter] below [2^32],
    [solveQP] comes to an end within [max_iter] passes and [polish_iter]
    refinement steps: it returns, or it reaches an operation without a
    result, whatever the problem and the backend. *)
Theorem solveQP_terminates (fuel N M : nat) (pbm : QuadraticProgram)
    (prm : SolverParams) (hotstart : option Solution) :
  max_iter prm = Z.of_nat N ->
  max_iter prm < UINT_MODULUS ->
  (polish prm = true -> polish_iter prm = Z.of_nat M /\ polish_iter prm < UINT_MODULUS) ->
  (N + M + 1 < fuel)%nat ->
  solveQP_report fuel pbm prm hotstart <> OutOfFuel.
Proof.
  intros HN Hsmall Hpolish Hfuel. unfold solveQP_report.
  destruct (feasible_set_empty pbm) as [[|]|]; try discriminate. cbn zeta.
  destruct (negb _); [discriminate|].
  change 0 with (counter 0) at 1.
  apply (admm_loop_returns N M _ _ _ HN Hsmall Hpolish N 0%nat); lia.
Qed.
End ReturnFacts.

(** ** The reference backend returns vectors of the right size *)

Section ReferenceFacts.
Import ReferenceLDLT.

Lemma reduce_length (a0 : float) (r0 r : list float) (k : nat) :
  length r0 = k -> length r = S k -> length (reduce a0 r0 r) = k.
Proof.
  intros H0 Hr. destruct r as [|a rest]; [discriminate|]. cbn in *.
  rewrite length_zip_with. lia.
Qed.

Lemma eliminate_length : forall (k : nat) (aug : list (list float)),
  length aug = k ->
  Forall (fun r => length r = S k) aug ->
  length (eliminate k aug) = k.
Proof.
  induction k as [|k IH]; intros aug Hlen Hrows; [reflexivity|].
  destruct aug as [|r others]; [discriminate|].
  apply Forall_cons in Hrows as [Hr Hothers].
  destruct r as [|a0 r0]; [discriminate|]. cbn [eliminate length].
  f_equal. apply IH.
  - rewrite length_map. cbn in Hlen. lia.
  - apply Forall_map. eapply Forall_impl; [exact Hothers|].
    intros r Hrl. cbn. apply reduce_length; [cbn in Hr; lia | exact Hrl].
Qed.

Lemma reference_solve_keeps_size : solve_keeps_size (backend := backend).
Proof.
  intros M b Hsq Hb. cbn. unfold ref_solve, ref_factorize. cbn [f_rows].
  assert (length (symmetric_rows M) = cols M) as Hrows.
  { unfold symmetric_rows. rewrite length_map, length_seq. exact Hsq. }
  rewrite Hrows. apply eliminate_length.
  - rewrite length_zip_with. lia.
  - apply Forall_forall. intros r Hr.
    apply list_elem_of_lookup in Hr as [i Hi].
    apply lookup_zip_with_Some in Hi as (row & bi & -> & Hrow & _).
    rewrite length_app. cbn.
    unfold symmetric_rows in Hrow. apply list_lookup_fmap_Some in Hrow as (j & -> & _).
    rewrite length_map, length_seq. lia.
Qed.
End ReferenceFacts.

Section MoreInstances.
Import Examples MoreExamples ReferenceLDLT.
Local Open Scope float_scope.

Lemma z_next_within_bounds_witness :
  cur_z (admm_update (factorize (kkt_matrix scalar_box default_params)) scalar_box
           default_params (init_iterates scalar_box None)) !! 0%nat = Some 1
  /\ (2 <? 1) = false
  /\ ((2 <? 1) = false -> (1 <? 1) = false).
Proof.
  assert (cur_z (admm_update (factorize (kkt_matrix scalar_box default_params)) scalar_box
                   default_params (init_iterates scalar_box None)) !! 0%nat = Some 1) as Hz
    by reflexivity.
  split; [exact Hz|].
  apply (z_next_within_bounds (factorize (kkt_matrix scalar_box default_params)) scalar_box
           default_params (init_iterates scalar_box None) 0 1 1 2 Hz); reflexivity.
Defined.

Lemma committed_dims_witness :
  iterates_dims scalar_box
    (committed (factorize (kkt_matrix scalar_box default_params)) scalar_box default_params
       (init_iterates scalar_box None) 3).
Proof.
  apply (committed_dims scalar_box default_params None 3).
  - exact reference_solve_keeps_size.
  - repeat split.
  - exact I.
Defined.

Lemma optimal_only_after_test_witness :
  exists j,
    S j = 1%nat
    /\ optimal_test near_origin check_every_pass
         (committed (factorize (kkt_matrix near_origin check_every_pass)) near_origin
            check_every_pass (init_iterates near_origin None) j) = true.
Proof.
  assert (solveQP_report 11 near_origin check_every_pass None
          = Returns (mkReport (mkSolution Optimal [-0x1p-12] [0]) 1 1)) as Hret by reflexivity.
  destruct (optimal_only_after_test 11 near_origin check_every_pass None _ Hret
              (or_introl eq_refl)) as (j & Hit & _ & _ & Hopt & _).
  exists j. split; [symmetry; exact Hit | exact Hopt].
Defined.

Lemma empty_vector_codes_witness :
  (exists j,
     S j = 10%nat
     /\ dual_infeasible_test unbounded_below default_params
          (committed (factorize (kkt_matrix unbounded_below default_params)) unbounded_below
             default_params (init_iterates unbounded_below None) j)
          (committed (factorize (kkt_matrix unbounded_below default_params)) unbounded_below
             default_params (init_iterates unbounded_below None) (S j)) = true)
  /\ (exists j,
        S j = 40%nat
        /\ primal_infeasible_test contradictory_rows default_params
             (committed (factorize (kkt_matrix contradictory_rows default_params))
                contradictory_rows default_params (init_iterates contradictory_rows None) j)
             (committed (factorize (kkt_matrix contradictory_rows default_params))
                contradictory_rows default_params (init_iterates contradictory_rows None) (S j))
           = true).
Proof.
  split.
  - assert (solveQP_report 100 unbounded_below default_params None
            = Returns (mkReport (mkSolution DualInfeasible [] []) 1 10)) as Hret
      by (vm_compute; reflexivity).
    destruct (empty_vector_codes 100 unbounded_below default_params None _ Hret)
      as (_ & Hdi & _).
    destruct (Hdi eq_refl) as (_ & j & Hit & _ & _ & _ & Htest).
    exists j. split; [symmetry; exact Hit | exact Htest].
  - assert (solveQP_report 100 contradictory_rows default_params None
            = Returns (mkReport (mkSolution PrimalInfeasible [] []) 1 40)) as Hret
      by (vm_compute; reflexivity).
    destruct (empty_vector_codes 100 contradictory_rows default_params None _ Hret)
      as (Hpi & _).
    destruct (Hpi eq_refl) as (_ & [(Hpre & _) | (_ & j & Hit & _ & _ & Htest)]).
    + exfalso. vm_compute in Hpre. discriminate Hpre.
    + exists j. split; [symmetry; exact Hit | exact Htest].
Defined.

Lemma max_iterations_only_at_cap_witness :
  Z.of_nat 3 = max_iter (with_max_iter 3 default_params).
Proof.
  assert (solveQP_report 10 scalar_box (with_max_iter 3 default_params) None
          = Returns (mkReport
              (mkSolution MaxIterations
                 (cur_x (committed (factorize (kkt_matrix scalar_box (with_max_iter 3 default_params)))
                           scalar_box (with_max_iter 3 default_params)
                           (init_iterates scalar_box None) 3))
                 (cur_y (committed (factorize (kkt_matrix scalar_box (with_max_iter 3 default_params)))
                           scalar_box (with_max_iter 3 default_params)
                           (init_iterates scalar_box None) 3)))
              1 3)) as Hret by reflexivity.
  exact (proj1 (max_iterations_only_at_cap 10 scalar_box (with_max_iter 3 default_params)
                  None _ Hret eq_refl)).
Defined.

Lemma polishQP_sizes_witness :
  length (primal (mkSolution Optimal [1] [-2])) = cols (A scalar_box)
  /\ length (dual (mkSolution Optimal [1] [-2])) = 1%nat.
Proof.
  assert (polishQP 10 scalar_box (mkSolution Optimal [1] [-2]) default_params
          = Returns (mkSolution Optimal [1] [-2])) as Hret by reflexivity.
  exact (polishQP_sizes 10 scalar_box (mkSolution Optimal [1] [-2])
           (mkSolution Optimal [1] [-2]) default_params
           reference_solve_keeps_size eq_refl eq_refl Hret).
Defined.

Lemma polish_without_refinement_witness :
  exists sol',
    polishQP 1 scalar_box (mkSolution Optimal [1] [-2]) (with_polish_iter 0 default_params)
    = Returns sol'
    /\ primal sol' = [0]
    /\ dual sol' !! 0%nat = Some 0.
Proof.
  assert (info (polish_factor scalar_box (mkSolution Optimal [1] [-2])
                  (with_polish_iter 0 default_params)) = 0%Z) as Hinfo by reflexivity.
  destruct (polish_without_refinement 0 scalar_box (mkSolution Optimal [1] [-2])
              (with_polish_iter 0 default_params) eq_refl Hinfo eq_refl)
    as (sol' & Hret & _ & Hprimal & Hdual).
  exists sol'. split; [exact Hret|]. split; [exact Hprimal|].
  apply (Hdual 0%nat). cbn. lia.
Defined.

Lemma solution_sizes_witness :
  length (primal (mkSolution Optimal [1] [-2])) = cols (A scalar_box)
  /\ length (dual (mkSolution Optimal [1] [-2])) = rows (A scalar_box).
Proof.
  assert (solveQP 100 scalar_box default_params None
          = Returns (mkSolution Optimal [1] [-2])) as Hret by (vm_compute; reflexivity).
  apply (solution_sizes 100 scalar_box default_params None (mkSolution Optimal [1] [-2])
           reference_solve_keeps_size).
  - repeat split.
  - exact I.
  - exact Hret.
Defined.

Lemma solveQP_terminates_witness :
  solveQP_report 10 scalar_box (with_max_iter 3 default_params) None <> OutOfFuel.
Proof.
  apply (solveQP_terminates 10 3 5 scalar_box (with_max_iter 3 default_params) None).
  - reflexivity.
  - reflexivity.
  - intros _. split; reflexivity.
  - lia.
Defined.
End MoreInstances.

(** ** Which part of the cost matrix is read *)

Section UpperTriangleFacts.
Context {backend : LDLT}.
Local Open Scope float_scope.

Lemma coeff_build (r c : nat) (f : nat -> nat -> float) (i j : nat) :
  (i < r)%nat -> (j < c)%nat -> coeff (build r c f) i j = f i j.
Proof.
  intros Hi Hj. unfold coeff, build. cbn [coeffs].
  rewrite (list_lookup_total_correct _ i (map (f i) (seq 0 c))).
  - apply list_lookup_total_correct.
    change (map (f i) (seq 0 c)) with (f i <$> seq 0 c).
    rewrite list_lookup_fmap, lookup_seq_lt by exact Hj. reflexivity.
  - change (map (fun i0 => map (f i0) (seq 0 c)) (seq 0 r))
      with ((fun i0 => map (f i0) (seq 0 c)) <$> seq 0 r).
    rewrite list_lookup_fmap, lookup_seq_lt by exact Hi. reflexivity.
Qed.

Lemma selfadjoint_upper_mul_same (M M' : Matrix) (t : Vec) :
  rows M = cols M ->
  same_upper M M' ->
  selfadjoint_upper_mul M t = selfadjoint_upper_mul M' t.
Proof.
  intros Hsq (Hr & Hc & Hco). unfold selfadjoint_upper_mul. rewrite <- Hr, <- Hc.
  apply map_ext_in. intros i Hi. apply in_seq in Hi. f_equal.
  apply map_ext_in. intros j Hj. apply in_seq in Hj.
  unfold upper_coeff. destruct (Nat.leb_spec i j); apply Hco; lia.
Qed.

Lemma kkt_matrix_same_upper (pbm : QuadraticProgram) (prm : SolverParams) (P' : Matrix) :
  same_upper_block (cols (A pbm)) (P pbm) P' ->
  same_upper (kkt_matrix pbm prm) (kkt_matrix (with_P P' pbm) prm).
Proof.
  intros HP. unfold kkt_matrix, with_P. cbn [A P].
  split; [reflexivity|]. split; [reflexivity|]. cbn [rows cols build].
  intros i j Hij Hi Hj. rewrite !coeff_build by assumption.
  destruct (Nat.ltb_spec i (cols (A pbm))); [|reflexivity].
  destruct (Nat.ltb_spec j (cols (A pbm))); [|reflexivity].
  rewrite (HP i j) by lia. reflexivity.
Qed.

Lemma polish_Hp_same_upper (pbm : QuadraticProgram) (P' : Matrix) (nl nu : nat)
    (LU_idx : list nat) (dlt : float) :
  same_upper_block (cols (A pbm)) (P pbm) P' ->
  same_upper (polish_H pbm (cols (A pbm)) nl nu LU_idx)
    (polish_H (with_P P' pbm) (cols (A pbm)) nl nu LU_idx)
  /\ same_upper (polish_Hp (polish_H pbm (cols (A pbm)) nl nu LU_idx) (cols (A pbm)) dlt)
       (polish_Hp (polish_H (with_P P' pbm) (cols (A pbm)) nl nu LU_idx) (cols (A pbm)) dlt).
Proof.
  intros HP.
  assert (same_upper (polish_H pbm (cols (A pbm)) nl nu LU_idx)
            (polish_H (with_P P' pbm) (cols (A pbm)) nl nu LU_idx)) as HH.
  { unfold polish_H, with_P. cbn [A P].
    split; [reflexivity|]. split; [reflexivity|]. cbn [rows cols build].
    intros i j Hij Hi Hj. rewrite !coeff_build by assumption.
    destruct (Nat.ltb_spec i (cols (A pbm))); [|reflexivity].
    destruct (Nat.ltb_spec j (cols (A pbm))); [|reflexivity].
    apply HP; lia. }
  split; [exact HH|].
  destruct HH as (Hr & Hc & Hco). unfold polish_Hp. rewrite <- Hr, <- Hc.
  split; [reflexivity|]. split; [reflexivity|]. cbn [rows cols build].
  intros i j Hij Hi Hj. rewrite !coeff_build by assumption.
  rewrite (Hco i j) by assumption. reflexivity.
Qed.

Lemma refine_same_step (F : Factor) (H H' : Matrix) (h : Vec) (bound : Z) :
  (forall t, refine_step F H h t = refine_step F H' h t) ->
  forall fuel i t_hat,
    refine fuel F H h bound i t_hat = refine fuel F H' h bound i t_hat.
Proof.
  intros Hstep. induction fuel as [|fuel IH]; intros i t_hat; [reflexivity|].
  cbn [refine]. destruct (i =? bound)%Z; [reflexivity|]. rewrite Hstep. apply IH.
Qed.

(** [polishQP] reads the cost matrix [P] on and above its diagonal only:
    changing [P] below the diagonal changes nothing of what it returns. *)
Theorem polishQP_reads_upper_P (fuel : nat) (pbm : QuadraticProgram) (P' : Matrix)
    (sol : Solution) (prm : SolverParams) :
  reads_upper_only ->
  same_upper_block (cols (A pbm)) (P pbm) P' ->
  polishQP fuel (with_P P' pbm) sol prm = polishQP fuel pbm sol prm.
Proof.
  intros Hupper HP.
  assert (active_counts (with_P P' pbm) sol = active_counts pbm sol) as Hcounts by reflexivity.
  assert (active_indices (with_P P' pbm) sol = active_indices pbm sol) as Hidx by reflexivity.
  assert (polish_factor (with_P P' pbm) sol prm = polish_factor pbm sol prm) as Hfac.
  { unfold polish_factor. rewrite Hcounts, Hidx.
    destruct (active_counts pbm sol) as [nl nu]. symmetry.
    apply Hupper; [reflexivity|].
    exact (proj2 (polish_Hp_same_upper pbm P' nl nu (active_indices pbm sol) (delta prm) HP)). }
  assert (polish_t_hat fuel (with_P P' pbm) sol prm = polish_t_hat fuel pbm sol prm) as Ht.
  { unfold polish_t_hat. rewrite Hfac, Hcounts, Hidx.
    destruct (active_counts pbm sol) as [nl nu]. symmetry.
    apply refine_same_step. intros t. unfold refine_step. f_equal. f_equal. f_equal.
    apply selfadjoint_upper_mul_same; [reflexivity|].
    exact (proj1 (polish_Hp_same_upper pbm P' nl nu (active_indices pbm sol) 0 HP)). }
  unfold polishQP. rewrite Hfac, Ht. reflexivity.
Qed.

(** The ADMM iterates depend on the cost matrix [P] through the KKT
    factorization only, hence on its upper triangle only. *)
Theorem iterates_read_upper_P (pbm : QuadraticProgram) (P' : Matrix) (prm : SolverParams)
    (st0 : Iterates) (k : nat) :
  reads_upper_only ->
  same_upper_block (cols (A pbm)) (P pbm) P' ->
  committed (factorize (kkt_matrix (with_P P' pbm) prm)) (with_P P' pbm) prm st0 k
  = committed (factorize (kkt_matrix pbm prm)) pbm prm st0 k.
Proof.
  intros Hupper HP.
  assert (factorize (kkt_matrix (with_P P' pbm) prm) = factorize (kkt_matrix pbm prm)) as HF.
  { symmetry. apply Hupper; [reflexivity|]. apply kkt_matrix_same_upper, HP. }
  rewrite HF. unfold committed. induction k as [|k IH]; [reflexivity|].
  rewrite !Nat.iter_succ, IH. reflexivity.
Qed.
End UpperTriangleFacts.

Section UpperTriangleInstances.
Import Examples MoreExamples ReferenceLDLT.
Local Open Scope float_scope.

Lemma reference_reads_upper_only : reads_upper_only (backend := backend).
Proof.
  intros M M' Hsq (Hr & Hc & Hco). cbn. unfold ref_factorize.
  assert (symmetric_rows M = symmetric_rows M') as ->; [|reflexivity].
  unfold symmetric_rows. rewrite <- Hr, <- Hc.
  apply map_ext_in. intros i Hi. apply in_seq in Hi.
  apply map_ext_in. intros j Hj. apply in_seq in Hj.
  unfold upper_coeff. destruct (Nat.leb_spec i j); apply Hco; lia.
Qed.

Lemma lower_changed_same_upper :
  same_upper_block (cols (A equality_qp)) (P equality_qp) lower_changed.
Proof.
  intros i j Hij Hj. cbn in Hj.
  destruct j as [|[|j]]; [| |lia].
  - assert (i = 0%nat) as -> by lia. reflexivity.
  - destruct i as [|[|i]]; [reflexivity | reflexivity | lia].
Qed.

Lemma polishQP_reads_upper_P_witness :
  polishQP 10 (with_P lower_changed equality_qp) (mkSolution Optimal [0; 1] [2]) default_params
  = polishQP 10 equality_qp (mkSolution Optimal [0; 1] [2]) default_params.
Proof.
  apply (polishQP_reads_upper_P 10 equality_qp lower_changed
           (mkSolution Optimal [0; 1] [2]) default_params).
  - exact reference_reads_upper_only.
  - exact lower_changed_same_upper.
Defined.

Lemma iterates_read_upper_P_witness :
  committed (factorize (kkt_matrix (with_P lower_changed equality_qp) default_params))
    (with_P lower_changed equality_qp) default_params (init_iterates equality_qp None) 7
  = committed (factorize (kkt_matrix equality_qp default_params))
      equality_qp default_params (init_iterates equality_qp None) 7.
Proof.
  apply (iterates_read_upper_P equality_qp lower_changed default_params
           (init_iterates equality_qp None) 7).
  - exact reference_reads_upper_only.
  - exact lower_changed_same_upper.
Defined.

(** The stopping tests of the dense flavour multiply by all of [P]: the
    same change below the diagonal turns [Optimal] after 50 passes into
    [MaxIterations]. *)
Example solveQP_reads_lower_P :
  omap (fun r => (code (solution r), iterations r))
    (solveQP_report 300 equality_qp (with_max_iter 200 default_params) None)
  = Returns (Optimal, 50%nat)
  /\ omap (fun r => (code (solution r), iterations r))
       (solveQP_report 300 (with_P lower_changed equality_qp)
          (with_max_iter 200 default_params) None)
     = Returns (MaxIterations, 200%nat).
Proof. split; vm_compute; reflexivity. Qed.
End UpperTriangleInstances.

(** ** How many passes a verdict takes *)

Section VerdictPasses.
Context {backend : LDLT}.
Local Open Scope Z_scope.

Lemma due_pass_count (prm : SolverParams) (j : nat) :
  0 <= stop_check_iter prm < UINT64_MODULUS ->
  stop_check_due prm (counter j) = Some true ->
  stop_check_iter prm <= Z.of_nat (S j)
  /\ (Z.of_nat (S j) <= UINT_MODULUS -> Z.of_nat (S j) mod stop_check_iter prm = 0).
Proof.
  intros HK. unfold stop_check_due, uint64_rem, uint64_sub.
  destruct (Z.eqb_spec (stop_check_iter prm) 0) as [|HK0]; [discriminate|]. cbn.
  intros [= Hdue]. apply Z.eqb_eq in Hdue.
  rewrite (Z.mod_small (stop_check_iter prm - 1)) in Hdue by lia.
  pose proof (counter_range j) as Hc.
  pose proof (Z.mod_pos_bound (counter j) (stop_check_iter prm)) as Hm.
  assert (counter j mod stop_check_iter prm <= counter j) as Hle
    by (apply Z.mod_le; lia).
  assert (counter j <= Z.of_nat j) as Hcj.
  { unfold counter. apply Z.mod_le; [lia|]. unfold UINT_MODULUS, UINT_WIDTH. lia. }
  split; [lia|]. intros Hsmall.
  rewrite counter_small in Hdue by lia.
  rewrite Nat2Z.inj_succ, <- Z.add_1_r.
  rewrite (Z.div_mod (Z.of_nat j) (stop_check_iter prm)) by lia.
  rewrite Hdue.
  replace (stop_check_iter prm * (Z.of_nat j / stop_check_iter prm)
           + (stop_check_iter prm - 1) + 1)
    with ((Z.of_nat j / stop_check_iter prm + 1) * stop_check_iter prm) by lia.
  apply Z.mod_mul. lia.
Qed.

(** A verdict of the stopping check takes at least [stop_check_iter]
    passes, and, within the range of the counter, a whole number of
    periods. *)
Theorem verdict_takes_whole_periods (fuel : nat) (pbm : QuadraticProgram)
    (prm : SolverParams) (hotstart : option Solution) (r : Report) :
  solveQP_report fuel pbm prm hotstart = Returns r ->
  0 <= stop_check_iter prm < UINT64_MODULUS ->
  code (solution r) <> MaxIterations ->
  code (solution r) <> Unknown ->
  feasible_set_empty pbm = Some false ->
  stop_check_iter prm <= Z.of_nat (iterations r)
  /\ (Z.of_nat (iterations r) <= UINT_MODULUS ->
      Z.of_nat (iterations r) mod stop_check_iter prm = 0).
Proof.
  intros Hret HK Hmax Hunk Hpre.
  destruct (solveQP_report_cases _ _ _ _ _ Hret)
    as [(Hpre' & _) | [(_ & _ & ->) | (_ & _ & Hloop)]].
  - congruence.
  - exfalso. apply Hunk. reflexivity.
  - apply admm_loop_result in Hloop
      as (_ & j & _ & _ & [(_ & _ & Hsol) | (_ & Hit & Hdue & _)]).
    + exfalso. apply Hmax. rewrite Hsol. reflexivity.
    + rewrite Hit. apply due_pass_count; assumption.
Qed.
End VerdictPasses.

Section VerdictPassesInstance.
Import Examples ReferenceLDLT.

Lemma verdict_takes_whole_periods_witness :
  (stop_check_iter default_params <= Z.of_nat 80)%Z
  /\ ((Z.of_nat 80 <= UINT_MODULUS)%Z ->
      (Z.of_nat 80 mod stop_check_iter default_params)%Z = 0%Z).
Proof.
  assert (solveQP_report 100 scalar_box default_params None
          = Returns (mkReport (mkSolution Optimal [1%float] [(-2)%float]) 1 80)) as Hret
    by (vm_compute; reflexivity).
  apply (verdict_takes_whole_periods 100 scalar_box default_params None _ Hret).
  - split; [discriminate | reflexivity].
  - discriminate.
  - discriminate.
  - reflexivity.
Defined.
End VerdictPassesInstance.

(** ** The sparse assembly against the dense one *)

Section SparseFacts.
Local Open Scope float_scope.

Lemma lookup_total_beyond {X : Type} `{Inhabited X} (xs : list X) (i : nat) :
  (length xs <= i)%nat -> xs !!! i = inhabitant.
Proof.
  intros Hi. rewrite list_lookup_total_alt, (lookup_ge_None_2 _ _ Hi). reflexivity.
Qed.

Lemma coeff_build_total (r c : nat) (f : nat -> nat -> float) (i j : nat) :
  coeff (build r c f) i j = if (i <? r)%nat && (j <? c)%nat then f i j else 0.
Proof.
  destruct (Nat.ltb_spec i r) as [Hi|Hi]; cbn [andb].
  - destruct (Nat.ltb_spec j c) as [Hj|Hj].
    + apply coeff_build; assumption.
    + unfold coeff, build. cbn [coeffs].
      rewrite (list_lookup_total_correct _ i (map (f i) (seq 0 c))).
      * rewrite lookup_total_beyond by (rewrite length_map, length_seq; lia).
        reflexivity.
      * change (map (fun i0 => map (f i0) (seq 0 c)) (seq 0 r))
          with ((fun i0 => map (f i0) (seq 0 c)) <$> seq 0 r).
        rewrite list_lookup_fmap, lookup_seq_lt by exact Hi. reflexivity.
  - unfold coeff, build. cbn [coeffs].
    rewrite (lookup_total_beyond _ i) by (rewrite length_map, length_seq; lia).
    reflexivity.
Qed.

Lemma find_inner_below (lo bound : nat) (it : list (nat * float)) (i : nat) :
  increasing_from lo bound it = true -> (i < lo)%nat -> find_inner it i = None.
Proof.
  revert lo. induction it as [|[index value] it IH]; intros lo Hs Hi; [reflexivity|].
  cbn in Hs. apply andb_prop in Hs as [Hs Hrest]. apply andb_prop in Hs as [Hlo _].
  apply Nat.leb_le in Hlo. cbn.
  destruct (Nat.eqb_spec index i); [lia|].
  apply (IH (S index)); [exact Hrest | lia].
Qed.

Lemma find_inner_beyond (lo bound : nat) (it : list (nat * float)) (i : nat) :
  increasing_from lo bound it = true -> (bound <= i)%nat -> find_inner it i = None.
Proof.
  revert lo. induction it as [|[index value] it IH]; intros lo Hs Hi; [reflexivity|].
  cbn in Hs. apply andb_prop in Hs as [Hs Hrest]. apply andb_prop in Hs as [_ Hb].
  apply Nat.ltb_lt in Hb. cbn.
  destruct (Nat.eqb_spec index i); [lia|].
  apply (IH (S index)); assumption.
Qed.

Lemma compressed_vector (M : SparseMatrix) (k : nat) :
  is_compressed M = true -> increasing_from 0 (innerSize M) (vectors M !!! k) = true.
Proof.
  intros Hc. apply andb_prop in Hc as [_ Hall].
  rewrite forallb_forall in Hall.
  destruct (vectors M !! k) as [it|] eqn:Hk.
  - rewrite (list_lookup_total_correct _ _ _ Hk).
    apply Hall. apply list_elem_of_In. eapply list_elem_of_lookup_2. exact Hk.
  - rewrite lookup_total_beyond; [reflexivity|].
    apply lookup_ge_None. exact Hk.
Qed.

Lemma sp_insert_free (i j : nat) (v : float) (H : Assembly) :
  (i < dim H)%nat -> (j < dim H)%nat -> stored H !! (i, j) = None ->
  sp_insert i j v H = Some (mkAssembly (dim H) (<[(i, j) := v]> (stored H))).
Proof.
  intros Hi Hj Hfree. unfold sp_insert.
  apply Nat.ltb_lt in Hi, Hj. rewrite Hi, Hj, Hfree. reflexivity.
Qed.

Lemma insert_upper_spec (col : nat) (it : list (nat * float)) :
  forall (lo bound : nat) (H : Assembly),
  (col < dim H)%nat ->
  increasing_from lo bound it = true ->
  (forall i, (lo <= i)%nat -> stored H !! (i, col) = None) ->
  exists H', insert_upper col it H = Some H' /\ dim H' = dim H
    /\ forall i j, stored H' !! (i, j)
         = if (j =? col)%nat && (lo <=? i)%nat && (i <=? col)%nat
           then find_inner it i else stored H !! (i, j).
Proof.
  induction it as [|[index value] it IH]; intros lo bound H Hcol Hs Hfree.
  - exists H. split; [reflexivity|]. split; [reflexivity|]. intros i j.
    destruct ((j =? col)%nat && (lo <=? i)%nat && (i <=? col)%nat) eqn:Hc; [|reflexivity].
    apply andb_prop in Hc as [Hc _]. apply andb_prop in Hc as [Hj Hlo].
    apply Nat.eqb_eq in Hj. apply Nat.leb_le in Hlo. subst j.
    rewrite Hfree by exact Hlo. reflexivity.
  - pose proof Hs as Hs'. cbn in Hs'.
    apply andb_prop in Hs' as [Hs' Hrest]. apply andb_prop in Hs' as [Hlo _].
    apply Nat.leb_le in Hlo. cbn [insert_upper].
    destruct (Nat.leb_spec index col) as [Hle|Hgt].
    + rewrite sp_insert_free by (try lia; apply Hfree; exact Hlo). cbn.
      destruct (IH (S index) bound
                  (mkAssembly (dim H) (<[(index, col) := value]> (stored H))))
        as (H' & Hrun & Hdim & Hlook).
      * exact Hcol.
      * exact Hrest.
      * intros i Hi. cbn. rewrite lookup_insert_ne by (intros [= ? ]; lia).
        apply Hfree. lia.
      * exists H'. split; [exact Hrun|]. split; [exact Hdim|]. intros i j.
        rewrite Hlook. cbn [stored find_inner].
        destruct (Nat.eqb_spec j col) as [->|Hj]; cbn [andb].
        -- destruct (Nat.eqb_spec index i) as [->|Hne].
           ++ rewrite (find_inner_below _ _ _ _ Hrest) by lia.
              rewrite lookup_insert_eq.
              destruct (Nat.leb_spec (S i) i); [lia|]. cbn [andb].
              destruct (Nat.leb_spec lo i); [|lia].
              destruct (Nat.leb_spec i col); [|lia]. reflexivity.
           ++ rewrite lookup_insert_ne by (intros [= ? ]; lia).
              destruct (Nat.leb_spec i col) as [Hic|Hic];
                rewrite ?andb_true_r, ?andb_false_r; [|reflexivity].
              destruct (Nat.leb_spec (S index) i) as [Hsi|Hsi].
              ** destruct (Nat.leb_spec lo i); [reflexivity|lia].
              ** rewrite (find_inner_below _ _ _ _ Hrest) by lia.
                 destruct (Nat.leb_spec lo i); [|reflexivity].
                 apply Hfree. assumption.
        -- rewrite lookup_insert_ne by (intros [= ? ]; lia). reflexivity.
    + exists H. split; [reflexivity|]. split; [reflexivity|]. intros i j.
      destruct ((j =? col)%nat && (lo <=? i)%nat && (i <=? col)%nat) eqn:Hc; [|reflexivity].
      apply andb_prop in Hc as [Hc Hic]. apply andb_prop in Hc as [Hj Hli].
      apply Nat.eqb_eq in Hj. apply Nat.leb_le in Hli, Hic. subst j.
      rewrite Hfree by exact Hli. cbn [find_inner].
      destruct (Nat.eqb_spec index i); [lia|].
      symmetry. apply (find_inner_below _ _ _ _ Hrest). lia.
Qed.

Lemma insert_row_spec (c : nat) (it : list (nat * float)) :
  forall (lo bound : nat) (H : Assembly),
  (c < dim H)%nat -> (bound <= dim H)%nat ->
  increasing_from lo bound it = true ->
  (forall i, (lo <= i)%nat -> stored H !! (i, c) = None) ->
  exists H', insert_row c it H = Some H' /\ dim H' = dim H
    /\ forall i j, stored H' !! (i, j)
         = if (j =? c)%nat && (lo <=? i)%nat
           then find_inner it i else stored H !! (i, j).
Proof.
  induction it as [|[index value] it IH]; intros lo bound H Hc Hb Hs Hfree.
  - exists H. split; [reflexivity|]. split; [reflexivity|]. intros i j.
    destruct ((j =? c)%nat && (lo <=? i)%nat) eqn:Hcond; [|reflexivity].
    apply andb_prop in Hcond as [Hj Hlo].
    apply Nat.eqb_eq in Hj. apply Nat.leb_le in Hlo. subst j.
    rewrite Hfree by exact Hlo. reflexivity.
  - pose proof Hs as Hs'. cbn in Hs'.
    apply andb_prop in Hs' as [Hs' Hrest]. apply andb_prop in Hs' as [Hlo Hib].
    apply Nat.leb_le in Hlo. apply Nat.ltb_lt in Hib. cbn [insert_row].
    rewrite sp_insert_free by (try lia; apply Hfree; exact Hlo). cbn.
    destruct (IH (S index) bound
                (mkAssembly (dim H) (<[(index, c) := value]> (stored H))))
      as (H' & Hrun & Hdim & Hlook).
    + exact Hc.
    + exact Hb.
    + exact Hrest.
    + intros i Hi. cbn. rewrite lookup_insert_ne by (intros [= ? ]; lia).
      apply Hfree. lia.
    + exists H'. split; [exact Hrun|]. split; [exact Hdim|]. intros i j.
      rewrite Hlook. cbn [stored find_inner].
      destruct (Nat.eqb_spec j c) as [->|Hj]; cbn [andb].
      * destruct (Nat.eqb_spec index i) as [->|Hne].
        -- rewrite (find_inner_below _ _ _ _ Hrest) by lia.
           rewrite lookup_insert_eq.
           destruct (Nat.leb_spec (S i) i); [lia|].
           destruct (Nat.leb_spec lo i); [reflexivity|lia].
        -- rewrite lookup_insert_ne by (intros [= ? ]; lia).
           destruct (Nat.leb_spec (S index) i) as [Hsi|Hsi].
           ++ destruct (Nat.leb_spec lo i); [reflexivity|lia].
           ++ rewrite (find_inner_below _ _ _ _ Hrest) by lia.
              destruct (Nat.leb_spec lo i); [|reflexivity].
              apply Hfree. assumption.
      * rewrite lookup_insert_ne by (intros [= ? ]; lia). reflexivity.
Qed.

Lemma for_each_seq_inv (Inv : nat -> Assembly -> Prop)
    (body : nat -> Assembly -> option Assembly) (len : nat) :
  forall (s : nat) (H0 : Assembly),
  Inv s H0 ->
  (forall c H, (s <= c < s + len)%nat -> Inv c H ->
     exists H', body c H = Some H' /\ Inv (S c) H') ->
  exists H', for_each (seq s len) body H0 = Some H' /\ Inv (s + len)%nat H'.
Proof.
  induction len as [|len IH]; intros s H0 H0inv Hstep.
  - exists H0. rewrite Nat.add_0_r. split; [reflexivity | exact H0inv].
  - cbn [seq for_each].
    destruct (Hstep s H0) as (H1 & Hb & H1inv); [lia | exact H0inv |].
    rewrite Hb. cbn.
    destruct (IH (S s) H1 H1inv) as (H' & Hrun & Hinv).
    + intros c H Hc. apply Hstep. lia.
    + exists H'. split; [exact Hrun|].
      replace (s + S len)%nat with (S s + len)%nat by lia. exact Hinv.
Qed.
End SparseFacts.

Section SparseAgreement.
Local Open Scope float_scope.

Ltac nat_cases :=
  repeat match goal with
  | |- context [(?a <? ?b)%nat] => destruct (Nat.ltb_spec a b)
  | |- context [(?a <=? ?b)%nat] => destruct (Nat.leb_spec a b)
  | |- context [(?a =? ?b)%nat] => destruct (Nat.eqb_spec a b)
  end; cbn [andb orb]; try lia.

Lemma coeffRef_add_run (i j : nat) (s : float) (H : Assembly) :
  (i < dim H)%nat -> (j < dim H)%nat ->
  coeffRef_add i j s H
  = Some (mkAssembly (dim H) (<[(i, j) := sp_coeff H i j + s]> (stored H))).
Proof.
  intros Hi Hj. unfold coeffRef_add. apply Nat.ltb_lt in Hi, Hj.
  rewrite Hi, Hj. reflexivity.
Qed.

Lemma coeffRef_sub_run (i j : nat) (s : float) (H : Assembly) :
  (i < dim H)%nat -> (j < dim H)%nat ->
  coeffRef_sub i j s H
  = Some (mkAssembly (dim H) (<[(i, j) := sp_coeff H i j - s]> (stored H))).
Proof.
  intros Hi Hj. unfold coeffRef_sub. apply Nat.ltb_lt in Hi, Hj.
  rewrite Hi, Hj. reflexivity.
Qed.

Lemma kkt_cost_loop (Pm : SparseMatrix) (s : float) (n k : nat) :
  is_compressed Pm = true -> (n <= k)%nat ->
  exists H,
    for_each (seq 0 n)
      (fun col H => H' ← insert_upper col (vectors Pm !!! col) H;
                    coeffRef_add col col s H')
      (empty_matrix k) = Some H
    /\ dim H = k
    /\ forall i j, stored H !! (i, j)
         = if (j <? n)%nat
           then upper_column Pm (fun d => Some (default 0 d + s)) j i else None.
Proof.
  intros HP Hnk.
  destruct (for_each_seq_inv
    (fun c H => dim H = k
       /\ forall i j, stored H !! (i, j)
            = if (j <? c)%nat
              then upper_column Pm (fun d => Some (default 0 d + s)) j i else None)
    (fun col H => H' ← insert_upper col (vectors Pm !!! col) H;
                  coeffRef_add col col s H')
    n 0%nat (empty_matrix k)) as (H & Hrun & Hdim & Hlook).
  - split; [reflexivity|]. intros i j. cbn. rewrite lookup_empty. reflexivity.
  - intros c H Hc [Hdim Hlook].
    destruct (insert_upper_spec c (vectors Pm !!! c) 0 (innerSize Pm) H)
      as (H' & Hrun' & Hdim' & Hlook').
    + lia.
    + apply compressed_vector. exact HP.
    + intros i _. rewrite Hlook. nat_cases. reflexivity.
    + rewrite Hrun'. cbn [mbind option_bind]. rewrite coeffRef_add_run by lia.
      eexists. split; [reflexivity|]. split; [cbn; lia|].
      intros i j. cbn [stored].
      destruct (decide ((c, c) = (i, j))) as [[= <- <-]|Hne].
      * rewrite lookup_insert_eq. unfold sp_coeff, upper_column.
        rewrite Hlook'. nat_cases. reflexivity.
      * rewrite lookup_insert_ne by exact Hne.
        rewrite Hlook', Hlook. unfold upper_column.
        nat_cases; try reflexivity; try congruence.
        all: exfalso; apply Hne; f_equal; lia.
  - exists H. split; [exact Hrun|]. split; [exact Hdim | exact Hlook].
Qed.

Lemma polish_cost_loop (Pm : SparseMatrix) (n k : nat) :
  is_compressed Pm = true -> (n <= k)%nat ->
  exists H,
    for_each (seq 0 n)
      (fun p_col H => insert_upper p_col (vectors Pm !!! p_col) H)
      (empty_matrix k) = Some H
    /\ dim H = k
    /\ forall i j, stored H !! (i, j)
         = if (j <? n)%nat then upper_column Pm (fun d => d) j i else None.
Proof.
  intros HP Hnk.
  destruct (for_each_seq_inv
    (fun c H => dim H = k
       /\ forall i j, stored H !! (i, j)
            = if (j <? c)%nat then upper_column Pm (fun d => d) j i else None)
    (fun p_col H => insert_upper p_col (vectors Pm !!! p_col) H)
    n 0%nat (empty_matrix k)) as (H & Hrun & Hdim & Hlook).
  - split; [reflexivity|]. intros i j. cbn. rewrite lookup_empty. reflexivity.
  - intros c H Hc [Hdim Hlook].
    destruct (insert_upper_spec c (vectors Pm !!! c) 0 (innerSize Pm) H)
      as (H' & Hrun' & Hdim' & Hlook').
    + lia.
    + apply compressed_vector. exact HP.
    + intros i _. rewrite Hlook. nat_cases. reflexivity.
    + exists H'. split; [exact Hrun'|]. split; [lia|].
      intros i j. rewrite Hlook', Hlook. unfold upper_column.
      nat_cases; try reflexivity; try congruence.
  - exists H. split; [exact Hrun|]. split; [exact Hdim | exact Hlook].
Qed.

Lemma kkt_constraint_loop (Am : SparseMatrix) (d : float) (H1 : Assembly) :
  let n := innerSize Am in
  let m := outerSize Am in
  is_compressed Am = true -> dim H1 = (n + m)%nat ->
  (forall i j, (n <= j)%nat -> stored H1 !! (i, j) = None) ->
  exists H,
    for_each (seq 0 m)
      (fun row H => H' ← insert_row (n + row) (vectors Am !!! row) H;
                    sp_insert (n + row) (n + row) d H')
      H1 = Some H
    /\ dim H = (n + m)%nat
    /\ forall i j, stored H !! (i, j)
         = if (j <? n)%nat then stored H1 !! (i, j)
           else if (j <? n + m)%nat then
             if (i =? j)%nat then Some d else find_inner (vectors Am !!! (j - n)%nat) i
           else None.
Proof.
  intros n m HA Hdim1 Hfree1.
  assert (forall k, increasing_from 0 n (vectors Am !!! k) = true) as Hvec
    by (intros k; apply compressed_vector; exact HA).
  clearbody n m.
  destruct (for_each_seq_inv
    (fun r H => dim H = (n + m)%nat
       /\ forall i j, stored H !! (i, j)
            = if (j <? n)%nat then stored H1 !! (i, j)
              else if (j <? n + r)%nat then
                if (i =? j)%nat then Some d else find_inner (vectors Am !!! (j - n)%nat) i
              else None)
    (fun row H => H' ← insert_row (n + row) (vectors Am !!! row) H;
                  sp_insert (n + row) (n + row) d H')
    m 0%nat H1) as (H & Hrun & Hdim & Hlook).
  - split; [exact Hdim1|]. intros i j. nat_cases; try reflexivity.
    apply Hfree1. assumption.
  - intros r H Hr [Hdim Hlook].
    pose proof (Hvec r) as Hinc.
    destruct (insert_row_spec (n + r) (vectors Am !!! r) 0 n H)
      as (H' & Hrun' & Hdim' & Hlook').
    + lia.
    + lia.
    + exact Hinc.
    + intros i _. rewrite Hlook. nat_cases. reflexivity.
    + rewrite Hrun'. cbn [mbind option_bind].
      rewrite sp_insert_free; [| lia | lia |].
      * eexists. split; [reflexivity|]. split; [cbn; lia|].
        intros i j. cbn [stored].
        destruct (decide ((n + r, n + r)%nat = (i, j))) as [[= <- <-]|Hne].
        -- rewrite lookup_insert_eq. nat_cases. reflexivity.
        -- rewrite lookup_insert_ne by exact Hne.
           rewrite Hlook', Hlook.
           nat_cases; try reflexivity; try congruence.
           replace (j - n)%nat with r by lia. reflexivity.
      * rewrite Hlook'. nat_cases.
        apply (find_inner_beyond _ _ _ _ Hinc). lia.
  - exists H. split; [exact Hrun|]. split; [exact Hdim | exact Hlook].
Qed.

Lemma polish_constraint_loop (Am : SparseMatrix) (LU_idx : list nat) (cnt : nat)
    (H1 : Assembly) :
  let n := innerSize Am in
  is_compressed Am = true -> dim H1 = (n + cnt)%nat ->
  (forall i j, (n <= j)%nat -> stored H1 !! (i, j) = None) ->
  exists H,
    for_each (seq 0 cnt)
      (fun a_row H => insert_row (n + a_row) (vectors Am !!! (LU_idx !!! a_row)) H)
      H1 = Some H
    /\ dim H = (n + cnt)%nat
    /\ forall i j, stored H !! (i, j)
         = if (j <? n)%nat then stored H1 !! (i, j)
           else if (j <? n + cnt)%nat
                then find_inner (vectors Am !!! (LU_idx !!! (j - n)%nat)) i
           else None.
Proof.
  intros n HA Hdim1 Hfree1.
  assert (forall k, increasing_from 0 n (vectors Am !!! k) = true) as Hvec
    by (intros k; apply compressed_vector; exact HA).
  clearbody n.
  destruct (for_each_seq_inv
    (fun r H => dim H = (n + cnt)%nat
       /\ forall i j, stored H !! (i, j)
            = if (j <? n)%nat then stored H1 !! (i, j)
              else if (j <? n + r)%nat
                   then find_inner (vectors Am !!! (LU_idx !!! (j - n)%nat)) i
              else None)
    (fun a_row H => insert_row (n + a_row) (vectors Am !!! (LU_idx !!! a_row)) H)
    cnt 0%nat H1) as (H & Hrun & Hdim & Hlook).
  - split; [exact Hdim1|]. intros i j. nat_cases; try reflexivity.
    apply Hfree1. assumption.
  - intros r H Hr [Hdim Hlook].
    pose proof (Hvec (LU_idx !!! r)) as Hinc.
    destruct (insert_row_spec (n + r) (vectors Am !!! (LU_idx !!! r)) 0 n H)
      as (H' & Hrun' & Hdim' & Hlook').
    + lia.
    + lia.
    + exact Hinc.
    + intros i _. rewrite Hlook. nat_cases. reflexivity.
    + exists H'. split; [exact Hrun'|]. split; [lia|].
      intros i j. rewrite Hlook', Hlook.
      nat_cases; try reflexivity; try congruence.
      replace (j - n)%nat with r by lia. reflexivity.
  - exists H. split; [exact Hrun|]. split; [exact Hdim | exact Hlook].
Qed.

Lemma polish_Hp_sparse_spec (H : Assembly) (n nl nu : nat) (dlt : float) :
  dim H = (n + nl + nu)%nat ->
  exists Hp, polish_Hp_sparse H n nl nu dlt = Some Hp
    /\ dim Hp = dim H
    /\ forall i j, stored Hp !! (i, j)
         = if (i =? j)%nat && (i <? n + nl + nu)%nat
           then Some (if (i <? n)%nat then sp_coeff H i i + dlt else sp_coeff H i i - dlt)
           else stored H !! (i, j).
Proof.
  intros Hdim. unfold polish_Hp_sparse.
  destruct (for_each_seq_inv
    (fun c Hp => dim Hp = dim H
       /\ forall i j, stored Hp !! (i, j)
            = if (i =? j)%nat && (i <? c)%nat then Some (sp_coeff H i i + dlt)
              else stored H !! (i, j))
    (fun i Hp => coeffRef_add i i dlt Hp) n 0%nat H) as (Hp1 & Hrun1 & Hdim1 & Hlook1).
  - split; [reflexivity|]. intros i j. nat_cases; reflexivity.
  - intros c Hp Hc [Hd Hl]. rewrite coeffRef_add_run by lia.
    eexists. split; [reflexivity|]. split; [exact Hd|].
    intros i j. cbn [stored].
    destruct (decide ((c, c) = (i, j))) as [[= <- <-]|Hne].
    + rewrite lookup_insert_eq. unfold sp_coeff. rewrite Hl. nat_cases. reflexivity.
    + rewrite lookup_insert_ne by exact Hne. rewrite Hl.
      nat_cases; try reflexivity. exfalso. apply Hne. f_equal; lia.
  - rewrite Hrun1. cbn [mbind option_bind].
    destruct (for_each_seq_inv
      (fun c Hp => dim Hp = dim H
         /\ forall i j, stored Hp !! (i, j)
              = if (i =? j)%nat && (i <? n + c)%nat
                then Some (if (i <? n)%nat then sp_coeff H i i + dlt
                           else sp_coeff H i i - dlt)
                else stored H !! (i, j))
      (fun i Hp => coeffRef_sub (n + i) (n + i) dlt Hp) (nl + nu) 0%nat Hp1)
      as (Hp & Hrun & Hdim' & Hlook).
    + split; [exact Hdim1|]. intros i j. rewrite Hlook1. nat_cases; reflexivity.
    + intros c Hp Hc [Hd Hl]. rewrite coeffRef_sub_run by lia.
      eexists. split; [reflexivity|]. split; [exact Hd|].
      intros i j. cbn [stored].
      destruct (decide ((n + c, n + c)%nat = (i, j))) as [[= <- <-]|Hne].
      * rewrite lookup_insert_eq. unfold sp_coeff. rewrite Hl. nat_cases. reflexivity.
      * rewrite lookup_insert_ne by exact Hne. rewrite Hl.
        nat_cases; try reflexivity. exfalso. apply Hne. f_equal; lia.
    + exists Hp. split; [exact Hrun|]. split; [exact Hdim'|].
      intros i j. rewrite Hlook. cbn [Nat.add].
      replace (n + (nl + nu))%nat with (n + nl + nu)%nat by lia. reflexivity.
Qed.

Lemma compressed_vector_beyond (M : SparseMatrix) (k : nat) :
  is_compressed M = true -> (outerSize M <= k)%nat -> vectors M !!! k = [].
Proof.
  intros Hc Hk. apply andb_prop in Hc as [Hlen _]. apply Nat.eqb_eq in Hlen.
  rewrite lookup_total_beyond by lia. reflexivity.
Qed.

Lemma dense_colmajor_coeff (M : SparseMatrix) (i j : nat) :
  is_compressed M = true ->
  coeff (dense_colmajor M) i j = default 0 (find_inner (vectors M !!! j) i).
Proof.
  intros Hc. unfold dense_colmajor. rewrite coeff_build_total.
  destruct (Nat.ltb_spec i (innerSize M)) as [Hi|Hi]; cbn [andb].
  - destruct (Nat.ltb_spec j (outerSize M)) as [Hj|Hj]; [reflexivity|].
    rewrite compressed_vector_beyond by assumption. reflexivity.
  - rewrite (find_inner_beyond _ _ _ _ (compressed_vector M j Hc)) by exact Hi.
    reflexivity.
Qed.

Lemma dense_rowmajor_coeff (M : SparseMatrix) (i j : nat) :
  is_compressed M = true ->
  coeff (dense_rowmajor M) i j = default 0 (find_inner (vectors M !!! i) j).
Proof.
  intros Hc. unfold dense_rowmajor. rewrite coeff_build_total.
  destruct (Nat.ltb_spec i (outerSize M)) as [Hi|Hi]; cbn [andb].
  - destruct (Nat.ltb_spec j (innerSize M)) as [Hj|Hj]; [reflexivity|].
    rewrite (find_inner_beyond _ _ _ _ (compressed_vector M i Hc)) by exact Hj.
    reflexivity.
  - rewrite compressed_vector_beyond by assumption. reflexivity.
Qed.

(** For a sparse problem whose matrices are compressed, the sparse
    assembly of the KKT matrix in [solveQP] never inserts twice at one
    position nor outside the matrix, stores nothing below the diagonal,
    and holds on and above the diagonal exactly the coefficients of the
    dense assembly for the dense problem with the same coefficients. *)
Theorem kkt_matrix_sparse_matches_dense (pbm : Sparse.QuadraticProgramSparse)
    (prm : SolverParams) :
  is_compressed (Sparse.P pbm) = true ->
  is_compressed (Sparse.A pbm) = true ->
  exists H, kkt_matrix_sparse pbm prm = Some H
    /\ holds_upper_of H (kkt_matrix (to_dense pbm) prm).
Proof.
  intros HP HA.
  set (n := innerSize (Sparse.A pbm)). set (m := outerSize (Sparse.A pbm)).
  destruct (kkt_cost_loop (Sparse.P pbm) (sigma prm) n (n + m) HP)
    as (H1 & Hrun1 & Hdim1 & Hlook1); [lia|].
  destruct (kkt_constraint_loop (Sparse.A pbm) ((-1) / rho prm) H1 HA Hdim1)
    as (H & Hrun & Hdim & Hlook).
  { intros i j Hj. rewrite Hlook1. fold n. nat_cases. reflexivity. }
  fold n m in Hrun, Hdim, Hlook.
  exists H. split.
  { unfold kkt_matrix_sparse. fold n m. rewrite Hrun1. exact Hrun. }
  unfold holds_upper_of, kkt_matrix.
  change (cols (A (to_dense pbm))) with n.
  change (rows (A (to_dense pbm))) with m.
  split; [exact Hdim|]. split; [exact Hdim|]. split.
  - intros i j Hij Hj. rewrite Hdim in Hj.
    rewrite coeff_build by lia.
    unfold sp_coeff. rewrite Hlook, Hlook1. unfold upper_column.
    change (P (to_dense pbm)) with (dense_colmajor (Sparse.P pbm)).
    change (A (to_dense pbm)) with (dense_rowmajor (Sparse.A pbm)).
    rewrite ?dense_colmajor_coeff, ?dense_rowmajor_coeff by assumption.
    nat_cases; try reflexivity; try (subst; reflexivity).
    rewrite (find_inner_beyond _ _ _ _ (compressed_vector _ (j - n) HA))
      by (fold n; lia).
    reflexivity.
  - intros i j Hij. rewrite Hlook, Hlook1. unfold upper_column.
    nat_cases; try reflexivity.
    apply (find_inner_beyond _ _ _ _ (compressed_vector _ (j - n) HA)).
    fold n. lia.
Qed.

(** For a sparse problem whose matrices are compressed, the sparse
    assembly of the reduced matrix [H] in [polishQP] and of its perturbed
    copy [Hp] is defined, stores nothing below the diagonal, and both
    hold on and above the diagonal the coefficients of their dense
    counterparts. *)
Theorem polish_sparse_matches_dense (pbm : Sparse.QuadraticProgramSparse)
    (nl nu : nat) (LU_idx : list nat) (dlt : float) :
  let n := innerSize (Sparse.A pbm) in
  is_compressed (Sparse.P pbm) = true ->
  is_compressed (Sparse.A pbm) = true ->
  exists H Hp,
    polish_H_sparse pbm n nl nu LU_idx = Some H
    /\ polish_Hp_sparse H n nl nu dlt = Some Hp
    /\ holds_upper_of H (polish_H (to_dense pbm) n nl nu LU_idx)
    /\ holds_upper_of Hp (polish_Hp (polish_H (to_dense pbm) n nl nu LU_idx) n dlt).
Proof.
  intros n HP HA.
  destruct (polish_cost_loop (Sparse.P pbm) n (n + nl + nu) HP)
    as (H1 & Hrun1 & Hdim1 & Hlook1); [lia|].
  destruct (polish_constraint_loop (Sparse.A pbm) LU_idx (nl + nu) H1 HA)
    as (H & Hrun & Hdim & Hlook).
  { fold n. lia. }
  { intros i j Hj. rewrite Hlook1. fold n. nat_cases. reflexivity. }
  fold n in Hrun, Hdim, Hlook.
  destruct (polish_Hp_sparse_spec H n nl nu dlt) as (Hp & Hrunp & Hdimp & Hlookp);
    [lia|].
  assert (forall i j, (i <= j)%nat -> (j < n + nl + nu)%nat ->
            sp_coeff H i j = coeff (polish_H (to_dense pbm) n nl nu LU_idx) i j) as Hup.
  { intros i j Hij Hj. unfold polish_H. rewrite coeff_build by lia.
    unfold sp_coeff. rewrite Hlook, Hlook1. unfold upper_column.
    change (P (to_dense pbm)) with (dense_colmajor (Sparse.P pbm)).
    change (A (to_dense pbm)) with (dense_rowmajor (Sparse.A pbm)).
    rewrite ?dense_colmajor_coeff, ?dense_rowmajor_coeff by assumption.
    nat_cases; try reflexivity; try (subst; reflexivity).
    rewrite (find_inner_beyond _ _ _ _
               (compressed_vector _ (LU_idx !!! (j - n)%nat) HA)) by (fold n; lia).
    reflexivity. }
  assert (forall i j, (j < i)%nat -> stored H !! (i, j) = None) as Hlow.
  { intros i j Hij. rewrite Hlook, Hlook1. unfold upper_column.
    nat_cases; try reflexivity.
    apply (find_inner_beyond _ _ _ _
             (compressed_vector _ (LU_idx !!! (j - n)%nat) HA)).
    fold n. lia. }
  exists H, Hp. split.
  { unfold polish_H_sparse. rewrite Hrun1. exact Hrun. }
  split; [exact Hrunp|]. split.
  - unfold holds_upper_of. cbn [polish_H build rows cols].
    split; [lia|]. split; [lia|]. split; [|exact Hlow].
    intros i j Hij Hj. apply Hup; lia.
  - unfold holds_upper_of. cbn [polish_Hp polish_H build rows cols].
    split; [lia|]. split; [lia|]. split.
    + intros i j Hij Hj.
      unfold sp_coeff. rewrite Hlookp.
      unfold polish_Hp. cbn [polish_H build rows cols].
      rewrite coeff_build by lia.
      rewrite <- !Hup by lia.
      nat_cases; try reflexivity; try (subst; reflexivity).
    + intros i j Hij. rewrite Hlookp. nat_cases; apply Hlow; exact Hij.
Qed.
End SparseAgreement.

Section SparseInstances.
Import Examples SparseExamples.
Local Open Scope float_scope.

Lemma kkt_matrix_sparse_matches_dense_witness :
  exists H, kkt_matrix_sparse coupled default_params = Some H
    /\ holds_upper_of H (kkt_matrix (to_dense coupled) default_params).
Proof.
  apply (kkt_matrix_sparse_matches_dense coupled default_params); reflexivity.
Defined.

Lemma polish_sparse_matches_dense_witness :
  exists H Hp,
    polish_H_sparse coupled 2 1 1 [1%nat; 0%nat] = Some H
    /\ polish_Hp_sparse H 2 1 1 (delta default_params) = Some Hp
    /\ holds_upper_of H (polish_H (to_dense coupled) 2 1 1 [1%nat; 0%nat])
    /\ holds_upper_of Hp
         (polish_Hp (polish_H (to_dense coupled) 2 1 1 [1%nat; 0%nat]) 2
            (delta default_params)).
Proof.
  apply (polish_sparse_matches_dense coupled 1 1 [1%nat; 0%nat] (delta default_params));
    reflexivity.
Defined.

(** The loop over a column of [P] stops at the first entry below the
    diagonal: in a column stored out of order the entries behind it are
    not copied. *)
Example unsorted_column_loses_entry :
  is_compressed (Sparse.P coupled_unsorted) = false
  /\ (H ← kkt_matrix_sparse coupled_unsorted default_params; Some (sp_coeff H 0 0))
     = Some (0 + sigma default_params)
  /\ coeff (kkt_matrix (to_dense coupled_unsorted) default_params) 0 0
     = 2 + sigma default_params.
Proof. split; [|split]; vm_compute; reflexivity. Qed.
End SparseInstances.
